(** * pagmo::sga -- a shallow embedding of [include/pagmo/algorithms/sga.hpp]

    The simple genetic algorithm of pagmo: the constructor and its parameter
    checks, [evolve] with its entry validation and generation loop, and the
    operators [perform_selection], [perform_crossover], [perform_mutation]
    and [sbx_crossover_impl].

    - a C++ [double] is a primitive binary64 [float]; comparisons are the
      IEEE ones ([<?], [<=?], [=?]), so NaN behaves as it does in the code;
    - [vector_double] is [list float]; [v[i]] is [v !!! i], [v[i] = x] is
      [<[i:=x]> v].  An access out of range is undefined in C++: the model
      reads a default and writes nothing there, and the statements below say
      where indices are in range;
    - the mutable random engine [m_e] is threaded through a state-and-error
      monad; what <random>, <algorithm> and <cmath> provide is an interface
      ([StdLib]) with the guarantees the C++ standard gives ([StdLibSpec]) and
      one executable instance ([Tape]) that replays a list of raw draws. *)

From Stdlib Require Import ZArith NArith Lia Bool.
From Stdlib Require Import Floats.
From stdpp Require Import base option list sorting strings.

(** ** Doubles *)

Abbreviation double := float (only parsing).

#[global] Instance float_inhabited : Inhabited float := populate 0%float.

(** NaN, on the specification side of a binary64 value. *)
Definition sf_is_nan (x : spec_float) : bool :=
  match x with S754_nan => true | _ => false end.

(** Modelled from the spec: [detail::less_than_f] of
    [detail/custom_comparisons.hpp], which is not among the sources at hand.
    The spec: NaN compares as greater than any real, equal NaNs compare
    not-less. *)
Definition less_than_f (a b : double) : bool :=
  if negb (is_nan a) then
    if negb (is_nan b) then (a <? b)%float else true
  else false.

(** What [std::sort] asks of its comparator. *)
Record strict_weak_order {A : Type} (cmp : A -> A -> bool) : Prop := {
  swo_irrefl a : cmp a a = false;
  swo_trans a b c : cmp a b = true -> cmp b c = true -> cmp a c = true;
  swo_incomp a b c : cmp a b = false -> cmp b c = false -> cmp a c = false
}.

(** ** Vectors and loops *)

Abbreviation vector_double := (list float) (only parsing).

(** [std::swap(v[i], v[j])]. *)
Definition swap {A} `{Inhabited A} (v : list A) (i j : nat) : list A :=
  <[i := v !!! j]> (<[j := v !!! i]> v).

(** [operator<] of two [std::vector<double>]: the lexicographic comparison
    of the standard library over the IEEE [<]. *)
Fixpoint vector_lt (a b : vector_double) : bool :=
  match a, b with
  | _, [] => false
  | [], _ :: _ => true
  | x :: a', y :: b' =>
      if (x <? y)%float then true
      else if (y <? x)%float then false
      else vector_lt a' b'
  end.

(** The indices [lo, lo + step, ...] below [hi], in the order a [for] loop
    visits them. *)
Definition range_step (lo hi step : nat) : list nat :=
  map (fun k => lo + k * step) (seq 0 ((hi - lo + (step - 1)) / step)).

Definition range (lo hi : nat) : list nat := seq lo (hi - lo).

(** A loop that threads [s] and touches no engine. *)
Definition for_pure {S} (lo hi : nat) (body : nat -> S -> S) (s : S) : S :=
  fold_left (fun s i => body i s) (range lo hi) s.

(** ** The standard library the algorithm is written against *)

Inductive exn := invalid_argument | logic_error | out_of_range.

(** The engine [detail::random_engine_type] with the distributions drawn from
    it, [std::shuffle], [std::sort] on index vectors and [std::pow]. *)
Class StdLib := {
  random_engine_type : Type;
  (** [random_engine_type(seed)] *)
  engine_of_seed : N -> random_engine_type;
  (** [std::uniform_int_distribution<size_type>(a, b)(m_e)] *)
  uniform_int : nat -> nat -> random_engine_type -> nat * random_engine_type;
  (** [std::uniform_int_distribution<unsigned int>()(m_e)] *)
  uniform_unsigned : random_engine_type -> N * random_engine_type;
  (** [std::uniform_real_distribution<>(0., 1.)(m_e)] *)
  uniform_real : random_engine_type -> double * random_engine_type;
  (** [std::shuffle(X.begin(), X.end(), m_e)] *)
  std_shuffle : list vector_double -> random_engine_type ->
                list vector_double * random_engine_type;
  (** [std::sort(v.begin(), v.end(), cmp)] *)
  std_sort : (nat -> nat -> bool) -> list nat -> list nat;
  (** [std::pow] *)
  std_pow : double -> double -> double
}.

(** [v] is in ascending order for [cmp]: no later element is less than an
    earlier one. *)
Definition ascending (cmp : nat -> nat -> bool) (v : list nat) : Prop :=
  forall i j a b, i < j -> v !! i = Some a -> v !! j = Some b -> cmp b a = false.

(** What the C++ standard promises of these facilities. *)
Class StdLibSpec (L : StdLib) : Prop := {
  uniform_int_range a b e : a <= b -> a <= (uniform_int a b e).1 <= b;
  uniform_unsigned_range e : ((uniform_unsigned e).1 < 2 ^ 32)%N;
  uniform_real_range e :
    (0 <=? (uniform_real e).1)%float = true /\
    ((uniform_real e).1 <? 1)%float = true;
  std_shuffle_perm X e : (std_shuffle X e).1 ≡ₚ X;
  std_sort_perm cmp v : strict_weak_order cmp -> std_sort cmp v ≡ₚ v;
  std_sort_ascending cmp v :
    strict_weak_order cmp -> ascending cmp (std_sort cmp v)
}.

(** ** The engine monad

    A computation reads and advances the engine and either returns a value
    or throws; the engine comes back in both cases. *)

Definition M {L : StdLib} (A : Type) : Type :=
  random_engine_type -> (exn + A) * random_engine_type.

Definition mret {L : StdLib} {A} (a : A) : M A := fun e => (inr a, e).

Definition mthrow {L : StdLib} {A} (x : exn) : M A := fun e => (inl x, e).

Definition mbind {L : StdLib} {A B} (c : M A) (k : A -> M B) : M B :=
  fun e => match c e with
           | (inl x, e') => (inl x, e')
           | (inr a, e') => k a e'
           end.

(** A draw never throws. *)
Definition draw {L : StdLib} {A}
    (d : random_engine_type -> A * random_engine_type) : M A :=
  fun e => let '(a, e') := d e in (inr a, e').

Declare Scope engine_scope.
Delimit Scope engine_scope with M.
Notation "'let*' x ':=' c 'in' k" := (mbind c (fun x => k))
  (at level 10, x name, c at level 100, k at level 200) : engine_scope.
Notation "'let*' ' p ':=' c 'in' k" :=
  (mbind c (fun x => let 'p := x in k))
  (at level 10, p pattern, c at level 100, k at level 200) : engine_scope.
Bind Scope engine_scope with M.

(** A loop over the indices [idx] that threads [s] through the engine. *)
Fixpoint for_each {L : StdLib} {S} (idx : list nat) (body : nat -> S -> M S)
    (s : S) : M S :=
  match idx with
  | [] => mret s
  | i :: idx' => (let* s' := body i s in for_each idx' body s')%M
  end.

(** [for (i = lo; i < hi; ++i) body] *)
Definition for_range {L : StdLib} {S} (lo hi : nat) (body : nat -> S -> M S)
    (s : S) : M S :=
  for_each (range lo hi) body s.

(** A [for] loop whose body may [break]: the body returns the new state and
    whether it left the loop. *)
Fixpoint for_each_break {L : StdLib} {S} (idx : list nat)
    (body : nat -> S -> M (S * bool)) (s : S) : M S :=
  match idx with
  | [] => mret s
  | i :: idx' =>
      (let* '(s', brk) := body i s in
       if (brk : bool) then mret s' else for_each_break idx' body s')%M
  end.

(** [c] returns, from every engine, a value that satisfies [P]. *)
Definition ok {L : StdLib} {A} (c : M A) (P : A -> Prop) : Prop :=
  forall e, exists a e', c e = (inr a, e') /\ P a.

(** ** The problem and the population *)

(** Modelled from the spec: [pagmo::problem] ([problem.hpp] is not among the
    sources at hand), by the interface the spec lists: [get_nx],
    [get_bounds], [get_nf], [get_nc], [get_name], [is_stochastic],
    [set_seed] and [fitness].  The objective of a stochastic problem reads
    the seed last set. *)
Record problem := {
  get_nx : nat;
  get_bounds : vector_double * vector_double;
  get_nf : nat;
  get_nc : nat;
  get_name : string;
  is_stochastic : bool;
  problem_seed : N;
  objective : N -> vector_double -> vector_double
}.

Definition fitness (prob : problem) (x : vector_double) : vector_double :=
  objective prob (problem_seed prob) x.

Definition set_seed (prob : problem) (seed : N) : problem :=
  {| get_nx := get_nx prob; get_bounds := get_bounds prob;
     get_nf := get_nf prob; get_nc := get_nc prob;
     get_name := get_name prob; is_stochastic := is_stochastic prob;
     problem_seed := seed; objective := objective prob |}.

(** Modelled from the spec: [pagmo::population] ([population.hpp] is not
    among the sources at hand): an ordered sequence of decision vectors with
    a parallel sequence of fitness vectors; [set_xf] replaces one
    individual's pair and evaluates nothing. *)
Record population := {
  get_problem : problem;
  get_x : list vector_double;
  get_f : list vector_double
}.

Definition size (pop : population) : nat := length (get_x pop).

Definition set_xf (pop : population) (i : nat) (x f : vector_double)
    : population :=
  {| get_problem := get_problem pop;
     get_x := <[i := x]> (get_x pop);
     get_f := <[i := f]> (get_f pop) |}.

Definition set_problem (pop : population) (prob : problem) : population :=
  {| get_problem := prob; get_x := get_x pop; get_f := get_f pop |}.

(** ** The operator kinds and their names *)

Module detail.

Inductive selection := TOURNAMENT | TRUNCATED.
Inductive crossover := EXPONENTIAL | BINOMIAL | SINGLE | SBX.
Inductive mutation := GAUSSIAN | UNIFORM | POLYNOMIAL.

#[global] Instance crossover_eq_dec : EqDecision crossover.
Proof. solve_decision. Defined.

Definition init_selection_map : list (string * selection) :=
  [("tournament", TOURNAMENT); ("truncated", TRUNCATED)].

Definition init_crossover_map : list (string * crossover) :=
  [("exponential", EXPONENTIAL); ("binomial", BINOMIAL); ("sbx", SBX);
   ("single", SINGLE)].

Definition init_mutation_map : list (string * mutation) :=
  [("gaussian", GAUSSIAN); ("uniform", UNIFORM); ("polynomial", POLYNOMIAL)].

Definition m_selection_map := init_selection_map.
Definition m_crossover_map := init_crossover_map.
Definition m_mutation_map := init_mutation_map.

(** [map.left.at(key)]: the value paired with [key], [std::out_of_range]
    when there is none. *)
Fixpoint left_at {V} (map : list (string * V)) (key : string) : exn + V :=
  match map with
  | [] => inl out_of_range
  | (k, v) :: map' => if String.eqb k key then inr v else left_at map' key
  end.

(** [map.right.at(value)]: the name paired with [value],
    [std::out_of_range] when there is none. *)
Fixpoint right_at {V} `{EqDecision V} (map : list (string * V)) (value : V)
    : exn + string :=
  match map with
  | [] => inl out_of_range
  | (k, v) :: map' =>
      if bool_decide (v = value) then inr k else right_at map' value
  end.

#[global] Instance selection_eq_dec : EqDecision selection.
Proof. solve_decision. Defined.

#[global] Instance mutation_eq_dec : EqDecision mutation.
Proof. solve_decision. Defined.

End detail.

(** ** The algorithm *)

Module sga.
Import detail.

Section sga.
Context {L : StdLib}.

(** The data members.  [m_gen], [m_seed] and [m_verbosity] are [unsigned]
    (32 bits); [m_elitism] and [m_param_s] are [unsigned] too and
    [m_int_dim] is a [size_type]: they only count and index, and are
    naturals here. *)
Record t := {
  m_gen : N;
  m_cr : double;
  m_eta_c : double;
  m_m : double;
  m_param_m : double;
  m_elitism : nat;
  m_param_s : nat;
  m_mutation : mutation;
  m_selection : selection;
  m_crossover : crossover;
  m_int_dim : nat;
  m_e : random_engine_type;
  m_seed : N;
  m_verbosity : N
}.

(** The constructor.  The member initialisers come first in C++, but an
    exception thrown by the body leaves no object: the result is either the
    exception or the finished object. *)
Definition sga (gen : N) (cr eta_c m param_m : double)
    (elitism param_s : nat) (mutation selection crossover : string)
    (int_dim : nat) (seed : N) : exn + t :=
  if (1 <? cr)%float || (cr <? 0)%float then inl invalid_argument
  else if (eta_c <? 1)%float || (100 <=? eta_c)%float then
    inl invalid_argument
  else if (m <? 0)%float || (1 <? m)%float then inl invalid_argument
  else if param_s =? 0 then inl invalid_argument
  else if negb (String.eqb mutation "gaussian")
          && negb (String.eqb mutation "uniform")
          && negb (String.eqb mutation "polynomial") then
    inl invalid_argument
  else if negb (String.eqb selection "truncated")
          && negb (String.eqb selection "tournament") then
    inl invalid_argument
  else if negb (String.eqb crossover "exponential")
          && negb (String.eqb crossover "binomial")
          && negb (String.eqb crossover "sbx")
          && negb (String.eqb crossover "single") then
    inl invalid_argument
  else if String.eqb mutation "polynomial"
          && ((param_m <? 1)%float || (100 <? param_m)%float) then
    inl invalid_argument
  else if negb (String.eqb mutation "polynomial")
          && ((param_m <? 0)%float || (1 <? param_m)%float) then
    inl invalid_argument
  else
    match left_at m_selection_map selection with
    | inl x => inl x
    | inr sel =>
    match left_at m_crossover_map crossover with
    | inl x => inl x
    | inr cro =>
    match left_at m_mutation_map mutation with
    | inl x => inl x
    | inr mut =>
        inr {| m_gen := gen; m_cr := cr; m_eta_c := eta_c; m_m := m;
               m_param_m := param_m; m_elitism := elitism;
               m_param_s := param_s; m_mutation := mut;
               m_selection := sel; m_crossover := cro;
               m_int_dim := int_dim; m_e := engine_of_seed seed;
               m_seed := seed; m_verbosity := 0 |}
    end end end.

(** [perform_selection].  [winner] is declared [double] in the source and
    holds an index: the conversions there and back are exact below 2^53,
    beyond any vector that fits in memory, and the model keeps the index.
    [i % m_param_s] is undefined for [m_param_s == 0], which the constructor
    rejects. *)
Definition perform_selection (self : t) (F : list vector_double)
    : M (list nat) :=
  let retval := replicate (length F) 0 in
  let best_idxs := seq 0 (length F) in
  match m_selection self with
  | TRUNCATED =>
      let best_idxs :=
        std_sort (fun a b => less_than_f ((F !!! a) !!! 0) ((F !!! b) !!! 0))
                 best_idxs in
      mret (for_pure 0 (length retval)
              (fun i retval =>
                 <[i := best_idxs !!! (i mod m_param_s self)]> retval)
              retval)
  | TOURNAMENT =>
      (let* '(retval, _) :=
         for_range 0 (length retval)
           (fun j '(retval, best_idxs) =>
              let* best_idxs :=
                for_range 0 (m_param_s self)
                  (fun i best_idxs =>
                     let* index :=
                       draw (uniform_int i (length best_idxs - 1)) in
                     mret (swap best_idxs index i))
                  best_idxs in
              let winner := best_idxs !!! 0 in
              let winner :=
                for_pure 1 (m_param_s self)
                  (fun i winner =>
                     if vector_lt (F !!! (best_idxs !!! i)) (F !!! winner)
                     then best_idxs !!! i else winner)
                  winner in
              mret (<[j := winner]> retval, best_idxs))
           (retval, best_idxs) in
       mret retval)%M
  end.

(** [sbx_crossover_impl].  [D - Di] is a [size_type] subtraction;
    [m_int_dim <= D] is assumed by the source and by the model.  The
    literal [1e-14] is written as the binary64 value it denotes,
    [0x1.6849b86a12b9bp-47]. *)
Definition sbx_crossover_impl (self : t) (parent1 parent2 : vector_double)
    (bounds : vector_double * vector_double)
    : M (vector_double * vector_double) :=
  let D := length parent1 in
  let Di := m_int_dim self in
  let Dc := D - Di in
  let lb := bounds.1 in
  let ub := bounds.2 in
  let child1 := parent1 in
  let child2 := parent2 in
  (let* r := draw uniform_real in
   let* '(child1, child2) :=
     if (r <=? m_cr self)%float then
       for_range 0 Dc
         (fun i '(child1, child2) =>
            let* r := draw uniform_real in
            if (r <=? 0.5)%float
               && (0x1.6849b86a12b9bp-47
                     <? abs (parent1 !!! i - parent2 !!! i))%float
               && negb (lb !!! i =? ub !!! i)%float
            then
              let '(y1, y2) :=
                if (parent1 !!! i <? parent2 !!! i)%float
                then (parent1 !!! i, parent2 !!! i)
                else (parent2 !!! i, parent1 !!! i) in
              let yl := lb !!! i in
              let yu := ub !!! i in
              let* rand01 := draw uniform_real in
              let beta := (1 + 2 * (y1 - yl) / (y2 - y1))%float in
              let alpha := (2 - std_pow beta (- (m_eta_c self + 1)))%float in
              let betaq :=
                if (rand01 <=? 1 / alpha)%float
                then std_pow (rand01 * alpha)%float
                             (1 / (m_eta_c self + 1))%float
                else std_pow (1 / (2 - rand01 * alpha))%float
                             (1 / (m_eta_c self + 1))%float in
              let c1 := (0.5 * ((y1 + y2) - betaq * (y2 - y1)))%float in
              let beta := (1 + 2 * (yu - y2) / (y2 - y1))%float in
              let alpha := (2 - std_pow beta (- (m_eta_c self + 1)))%float in
              let betaq :=
                if (rand01 <=? 1 / alpha)%float
                then std_pow (rand01 * alpha)%float
                             (1 / (m_eta_c self + 1))%float
                else std_pow (1 / (2 - rand01 * alpha))%float
                             (1 / (m_eta_c self + 1))%float in
              let c2 := (0.5 * ((y1 + y2) + betaq * (y2 - y1)))%float in
              let c1 := if (c1 <? lb !!! i)%float then lb !!! i else c1 in
              let c2 := if (c2 <? lb !!! i)%float then lb !!! i else c2 in
              let c1 := if (ub !!! i <? c1)%float then ub !!! i else c1 in
              let c2 := if (ub !!! i <? c2)%float then ub !!! i else c2 in
              let* r := draw uniform_real in
              if (r <=? 0.5)%float
              then mret (<[i := c1]> child1, <[i := c2]> child2)
              else mret (<[i := c2]> child1, <[i := c1]> child2)
            else mret (child1, child2))
         (child1, child2)
     else mret (child1, child2) in
   for_range Dc D
     (fun i '(child1, child2) =>
        let* r := draw uniform_real in
        if (r <=? m_cr self)%float then
          let* site1 := draw (uniform_int 0 (Di - 1)) in
          let* site2 := draw (uniform_int 0 (Di - 1)) in
          let '(site1, site2) :=
            if site2 <? site1 then (site2, site1) else (site1, site2) in
          let copy_own j '(child1, child2) :=
            (<[j := parent1 !!! j]> child1, <[j := parent2 !!! j]> child2) in
          let copy_other j '(child1, child2) :=
            (<[j := parent2 !!! j]> child1, <[j := parent1 !!! j]> child2) in
          mret (for_pure site2 Di copy_own
                  (for_pure site1 site2 copy_other
                     (for_pure 0 site1 copy_own (child1, child2))))
        else
          mret (<[i := parent1 !!! i]> child1, <[i := parent2 !!! i]> child2))
     (child1, child2))%M.

(** The [do ... while] of the exponential crossover.  The body runs, then
    the draw is made, then [L < dim] is tested; [fuel] bounds the number of
    turns and [dim] turns are never used up, as [L] counts them. *)
Fixpoint exponential_loop (fuel : nat) (cr : double) (dim : nat)
    (parent2 child : vector_double) (n L : nat) : M vector_double :=
  let child := <[n := parent2 !!! n]> child in
  let n := (n + 1) mod dim in
  let L := L + 1 in
  (let* r := draw uniform_real in
   if (r <? cr)%float && (L <? dim) then
     match fuel with
     | 0 => mret child
     | S fuel' => exponential_loop fuel' cr dim parent2 child n L
     end
   else mret child)%M.

(** [perform_crossover].  [dim - 1u] wraps for [dim == 0]; a problem has at
    least one dimension. *)
Definition perform_crossover (self : t) (X : list vector_double)
    (bounds : vector_double * vector_double) : M (list vector_double) :=
  let dim := length (X !!! 0) in
  let all_idx := seq 0 (length X) in
  match m_crossover self with
  | SBX =>
      (let* X := draw (std_shuffle X) in
       for_each (range_step 0 (length X) 2)
         (fun i X =>
            let* children :=
              sbx_crossover_impl self (X !!! i) (X !!! (i + 1)) bounds in
            mret (<[i + 1 := children.2]> (<[i := children.1]> X)))
         X)%M
  | _ =>
      let XCOPY := X in
      (let* '(X, _) :=
         for_range 0 (length X)
           (fun i '(X, all_idx) =>
              let all_idx := swap all_idx 0 i in
              let* partner_idx :=
                draw (uniform_int 1 (length all_idx - 1)) in
              let child := X !!! i in
              let parent2 := XCOPY !!! (all_idx !!! partner_idx) in
              let* child :=
                match m_crossover self with
                | EXPONENTIAL =>
                    let* n := draw (uniform_int 0 (dim - 1)) in
                    exponential_loop dim (m_cr self) dim parent2 child n 0
                | BINOMIAL =>
                    let* n := draw (uniform_int 0 (dim - 1)) in
                    let* '(child, _) :=
                      for_range 0 dim
                        (fun L '(child, n) =>
                           let* r := draw uniform_real in
                           let child :=
                             if (r <? m_cr self)%float || (L + 1 =? dim)
                             then <[n := parent2 !!! n]> child
                             else child in
                           mret (child, (n + 1) mod dim))
                        (child, n) in
                    mret child
                | SINGLE =>
                    let* n := draw (uniform_int 0 dim) in
                    mret (for_pure n dim
                            (fun j child => <[j := parent2 !!! j]> child)
                            child)
                | SBX => mthrow logic_error
                end in
              mret (<[i := child]> X, all_idx))
           (X, all_idx) in
       mret X)%M
  end.

(** [perform_mutation].  The [switch] has the one case [UNIFORM]; its loop
    over the continuous part ends in an unconditional [break]. *)
Definition perform_mutation (self : t) (X : list vector_double)
    (bounds : vector_double * vector_double) : M (list vector_double) :=
  let dim := length (X !!! 0) in
  let dimi := m_int_dim self in
  let dimc := dim - dimi in
  let lb := bounds.1 in
  let ub := bounds.2 in
  for_range 0 (length X)
    (fun i X =>
       match m_mutation self with
       | UNIFORM =>
           for_each_break (range 0 dimc)
             (fun j X =>
                let* r := draw uniform_real in
                mret (<[i := <[j := (lb !!! j
                                      + r * (ub !!! j - lb !!! j))%float]>
                               (X !!! i)]> X,
                      true))
             X
       | _ => mret X
       end)%M
    X.

(** Step 5 of a generation, the reinsertion: both the population and the
    offspring are ranked by [less_than_f] on the fitness, the first
    [m_elitism] slots take parents and the others take offspring. *)
Definition reinsertion (self : t) (pop : population)
    (XNEW FNEW : list vector_double) : population :=
  let best_parents :=
    std_sort (fun a b => less_than_f ((get_f pop !!! a) !!! 0)
                                     ((get_f pop !!! b) !!! 0))
             (seq 0 (length (get_f pop))) in
  let best_offsprings :=
    std_sort (fun a b => less_than_f ((FNEW !!! a) !!! 0)
                                     ((FNEW !!! b) !!! 0))
             (seq 0 (length FNEW)) in
  let pop_copy := pop in
  let pop :=
    for_pure 0 (m_elitism self)
      (fun i pop =>
         set_xf pop i (get_x pop_copy !!! (best_parents !!! i))
                      (get_f pop_copy !!! (best_parents !!! i)))
      pop in
  let pop :=
    for_pure (m_elitism self) (size pop)
      (fun i pop =>
         set_xf pop i (XNEW !!! (best_offsprings !!! i))
                      (FNEW !!! (best_offsprings !!! i)))
      pop in
  pop.

(** Step 0 of a generation: a stochastic problem is given a new seed and
    the whole population is evaluated again. *)
Definition reevaluation (pop : population) : M population :=
  (if is_stochastic (get_problem pop) then
     let* seed := draw uniform_unsigned in
     let pop := set_problem pop (set_seed (get_problem pop) seed) in
     mret (for_pure 0 (size pop)
             (fun j pop =>
                set_xf pop j (get_x pop !!! j)
                       (fitness (get_problem pop) (get_x pop !!! j)))
             pop)
   else mret pop)%M.

(** One turn of the generation loop of [evolve], with its steps 0 and 5
    above.  [prob] is a reference to the problem inside [pop], so a fitness
    evaluated after [set_seed] reads the new seed. *)
Definition generation (self : t) (pop : population) : M population :=
  (let* pop := reevaluation pop in
   let prob := get_problem pop in
   let XNEW := get_x pop in
   let FNEW := get_f pop in
   (* 1 - selection *)
   let* selected_idx := perform_selection self FNEW in
   let XNEW :=
     for_pure 0 (length XNEW)
       (fun i XNEW => <[i := get_x pop !!! (selected_idx !!! i)]> XNEW)
       XNEW in
   (* 2 - crossover *)
   let* XNEW := perform_crossover self XNEW (get_bounds prob) in
   (* 3 - mutation *)
   let* XNEW := perform_mutation self XNEW (get_bounds prob) in
   (* 4 - evaluation *)
   let FNEW :=
     for_pure 0 (length XNEW)
       (fun i FNEW => <[i := fitness prob (XNEW !!! i)]> FNEW) FNEW in
   (* 5 - reinsertion *)
   mret (reinsertion self pop XNEW FNEW))%M.

(** [for (decltype(m_gen) i = 1u; i <= m_gen; ++i)]: the counter is a 32-bit
    [unsigned] and wraps.  [fuel] bounds the number of turns; [None] is a
    loop that has not ended within it. *)
Fixpoint generation_loop (fuel : nat) (self : t) (i : N) (pop : population)
    (e : random_engine_type)
    : option ((exn + population) * random_engine_type) :=
  match fuel with
  | 0 => None
  | S fuel' =>
      if (i <=? m_gen self)%N then
        match generation self pop e with
        | (inl x, e') => Some (inl x, e')
        | (inr pop', e') =>
            generation_loop fuel' self ((i + 1) mod 2 ^ 32)%N pop' e'
        end
      else Some (inr pop, e)
  end.

(** [evolve], run on the engine [m_e] of the object; the engine it leaves
    behind is returned with the outcome. *)
Definition evolve (fuel : nat) (self : t) (pop : population)
    : option ((exn + population) * random_engine_type) :=
  let prob := get_problem pop in
  let NP := size pop in
  if negb (get_nc prob =? 0) then Some (mthrow invalid_argument (m_e self))
  else if negb (get_nf prob =? 1) then
    Some (mthrow invalid_argument (m_e self))
  else if NP <? 2 then Some (mthrow invalid_argument (m_e self))
  else if size pop <? m_elitism self then
    Some (mthrow invalid_argument (m_e self))
  else if size pop <? m_param_s self then
    Some (mthrow invalid_argument (m_e self))
  else if bool_decide (m_crossover self = SBX)
          && negb (size pop mod 2 =? 0) then
    Some (mthrow invalid_argument (m_e self))
  else if (m_gen self =? 0)%N then Some (mret pop (m_e self))
  else generation_loop fuel self 1 pop (m_e self).

End sga.

End sga.

(** The accessors of the class, in a name space of their own ([set_seed] is
    also the name of the problem's). *)
Module sga_accessors.

Section accessors.
Context {L : StdLib}.

(** [set_seed]: [m_e.seed(seed); m_seed = seed;] *)
Definition set_seed (self : sga.t) (seed : N) : sga.t :=
  {| sga.m_gen := sga.m_gen self; sga.m_cr := sga.m_cr self;
     sga.m_eta_c := sga.m_eta_c self; sga.m_m := sga.m_m self;
     sga.m_param_m := sga.m_param_m self;
     sga.m_elitism := sga.m_elitism self;
     sga.m_param_s := sga.m_param_s self;
     sga.m_mutation := sga.m_mutation self;
     sga.m_selection := sga.m_selection self;
     sga.m_crossover := sga.m_crossover self;
     sga.m_int_dim := sga.m_int_dim self;
     sga.m_e := engine_of_seed seed;
     sga.m_seed := seed;
     sga.m_verbosity := sga.m_verbosity self |}.

Definition get_seed (self : sga.t) : N := sga.m_seed self.

(** [set_verbosity]: [m_verbosity = level;] *)
Definition set_verbosity (self : sga.t) (level : N) : sga.t :=
  {| sga.m_gen := sga.m_gen self; sga.m_cr := sga.m_cr self;
     sga.m_eta_c := sga.m_eta_c self; sga.m_m := sga.m_m self;
     sga.m_param_m := sga.m_param_m self;
     sga.m_elitism := sga.m_elitism self;
     sga.m_param_s := sga.m_param_s self;
     sga.m_mutation := sga.m_mutation self;
     sga.m_selection := sga.m_selection self;
     sga.m_crossover := sga.m_crossover self;
     sga.m_int_dim := sga.m_int_dim self;
     sga.m_e := sga.m_e self;
     sga.m_seed := sga.m_seed self;
     sga.m_verbosity := level |}.

Definition get_verbosity (self : sga.t) : N := sga.m_verbosity self.

Definition get_name (self : sga.t) : string := "Genetic Algorithm".

(** The names that [get_extra_info] looks up for its three "Type:" lines,
    [m_crossover_map.right.at(m_crossover)] and the like.  (The rest of the
    text streams numbers, whose printing is not modelled.) *)
Definition crossover_name (self : sga.t) : exn + string :=
  detail.right_at detail.m_crossover_map (sga.m_crossover self).

Definition mutation_name (self : sga.t) : exn + string :=
  detail.right_at detail.m_mutation_map (sga.m_mutation self).

Definition selection_name (self : sga.t) : exn + string :=
  detail.right_at detail.m_selection_map (sga.m_selection self).

End accessors.

End sga_accessors.

(** ** An executable standard library

    The engine is a tape of raw draws, read front to back (and zero once it
    is used up); each distribution maps the next raw draw into its range.
    Every sequence of outcomes of the integer distributions is the replay of
    some tape; the reals drawn are the quarters of [0, 1). *)

Module Tape.

Definition next (e : list nat) : nat * list nat :=
  match e with
  | [] => (0, [])
  | r :: e' => (r, e')
  end.

Definition draw_int (a b : nat) (e : list nat) : nat * list nat :=
  let '(r, e') := next e in (a + r mod (b - a + 1), e').

Definition draw_unsigned (e : list nat) : N * list nat :=
  let '(r, e') := next e in ((N.of_nat r mod 2 ^ 32)%N, e').

(** The quarters of [0, 1). *)
Definition draw_real (e : list nat) : double * list nat :=
  let '(r, e') := next e in
  (match r mod 4 with
   | 0 => 0
   | 1 => 0.25
   | 2 => 0.5
   | _ => 0.75
   end%float, e').

(** A rotation by the next raw draw. *)
Definition shuffle (X : list vector_double) (e : list nat)
    : list vector_double * list nat :=
  let '(r, e') := next e in (rotate r X, e').

(** A merge sort; [a] may stand before [b] unless [b] is less than [a]. *)
Definition sort (cmp : nat -> nat -> bool) (v : list nat) : list nat :=
  @merge_sort nat (fun a b => cmp b a = false)
    (fun a b => decide (cmp b a = false)) v.

(** The powers that need no rounding ([pow(x, 0)], [pow(1, y)],
    [pow(x, 1)], and [pow(0, y)] for [0 < y < 1]), and NaN for the
    others. *)
Definition pow (x y : double) : double :=
  if (y =? 0)%float then 1%float
  else if (x =? 1)%float then 1%float
  else if (y =? 1)%float then x
  else if (x =? 0)%float && (0 <? y)%float && (y <? 1)%float then 0%float
  else nan.

#[global] Instance lib : StdLib := {|
  random_engine_type := list nat;
  engine_of_seed := fun seed => [N.to_nat seed];
  uniform_int := draw_int;
  uniform_unsigned := draw_unsigned;
  uniform_real := draw_real;
  std_shuffle := shuffle;
  std_sort := sort;
  std_pow := pow
|}.

End Tape.

(** ** Populations and objects the statements speak of *)

(** The invariant of a population: as many fitness vectors as decision
    vectors, each of the length the problem gives it. *)
Definition well_formed (pop : population) : Prop :=
  length (get_f pop) = length (get_x pop) /\
  Forall (fun x => length x = get_nx (get_problem pop)) (get_x pop) /\
  Forall (fun f => length f = get_nf (get_problem pop)) (get_f pop).

(** What the entry checks of [evolve] refuse. *)
Definition incompatible {L : StdLib} (self : sga.t) (pop : population)
    : Prop :=
  get_nc (get_problem pop) <> 0 \/
  get_nf (get_problem pop) <> 1 \/
  size pop < 2 \/
  size pop < sga.m_elitism self \/
  size pop < sga.m_param_s self \/
  (sga.m_crossover self = detail.SBX /\ size pop mod 2 <> 0).

(** The comparator of every ranking: the first fitness component under
    [less_than_f]. *)
Definition by_fitness (F : list vector_double) (a b : nat) : bool :=
  less_than_f ((F !!! a) !!! 0) ((F !!! b) !!! 0).

(** [pop] evaluated again under [seed]. *)
Definition reevaluated (pop : population) (seed : N) : population :=
  let prob := set_seed (get_problem pop) seed in
  {| get_problem := prob; get_x := get_x pop;
     get_f := map (fitness prob) (get_x pop) |}.

(** The population that a generation started on engine [e] ranks and
    reinserts into: [pop] itself, or [pop] evaluated again under the seed
    drawn from [e] when the problem is stochastic. *)
Definition ranked_population {L : StdLib} (pop : population)
    (e : random_engine_type) : population :=
  if is_stochastic (get_problem pop)
  then reevaluated pop (uniform_unsigned e).1
  else pop.

(** [pop'] holds, in its first [m_elitism] slots, the individuals that a
    ranking of [pop] by fitness puts first, decision vector and fitness as
    they are in [pop]. *)
Definition elite_kept {L : StdLib} (self : sga.t) (pop pop' : population)
    : Prop :=
  exists best_parents : list nat,
    best_parents ≡ₚ seq 0 (size pop) /\
    ascending (by_fitness (get_f pop)) best_parents /\
    forall i, i < sga.m_elitism self ->
      exists k, best_parents !! i = Some k /\
                get_x pop' !! i = get_x pop !! k /\
                get_f pop' !! i = get_f pop !! k.

(** [n] generations in a row, the engine threaded through them. *)
Fixpoint generations {L : StdLib} (n : nat) (self : sga.t)
    (pop : population) : M population :=
  match n with
  | 0 => mret pop
  | S n' => (let* pop' := sga.generation self pop in
             generations n' self pop')%M
  end.

(** Coordinate [j] of [x] is not below [lb[j]] and not above [ub[j]], as
    the tests [c < lb[i]] and [c > ub[i]] of the code see it. *)
Definition within (bounds : vector_double * vector_double)
    (x : vector_double) (j : nat) : Prop :=
  (x !!! j <? bounds.1 !!! j)%float = false /\
  (bounds.2 !!! j <? x !!! j)%float = false.

(** The [switch] inside the loop of [perform_crossover], on its own: the
    crossover of one [child] with its partner [parent2]. *)
Definition mate {L : StdLib} (self : sga.t) (dim : nat)
    (parent2 child : vector_double) : M vector_double :=
  match sga.m_crossover self with
  | detail.EXPONENTIAL =>
      (let* n := draw (uniform_int 0 (dim - 1)) in
       sga.exponential_loop dim (sga.m_cr self) dim parent2 child n 0)%M
  | detail.BINOMIAL =>
      (let* n := draw (uniform_int 0 (dim - 1)) in
       let* '(child, _) :=
         for_range 0 dim
           (fun L '(child, n) =>
              let* r := draw uniform_real in
              let child :=
                if (r <? sga.m_cr self)%float || (L + 1 =? dim)
                then <[n := parent2 !!! n]> child
                else child in
              mret (child, (n + 1) mod dim))
           (child, n) in
       mret child)%M
  | detail.SINGLE =>
      (let* n := draw (uniform_int 0 dim) in
       mret (for_pure n dim
               (fun j child => <[j := parent2 !!! j]> child)
               child))%M
  | detail.SBX => mthrow logic_error
  end.

(** Every coordinate of [child] is that coordinate of [own] or of
    [partner], and [child] is as long as [own]. *)
Definition gene_mix (own partner child : vector_double) : Prop :=
  length child = length own /\
  forall j, child !!! j = own !!! j \/ child !!! j = partner !!! j.

(** ** One coordinate of the simulated binary crossover

    The computation of [sbx_crossover_impl] for one crossed coordinate, by
    its steps: [y1] and [y2] are the smaller and the larger of the parents'
    values, [rand01] is the draw. *)









(** The slot that mates with slot [i] when [partner_idx] is drawn: entry
    [partner_idx] of the index vector once the swaps of the turns up to [i]
    are made. *)
Definition partner_of (i partner_idx : nat) : nat :=
  if partner_idx <=? i then partner_idx - 1 else partner_idx.

(** The loop of [perform_crossover] for the kinds other than SBX, with the
    partner read off [partner_of] and no index vector. *)
Definition crossover_by_partner {L : StdLib} (self : sga.t)
    (X : list vector_double) : M (list vector_double) :=
  for_range 0 (length X)
    (fun i X' =>
       let* partner_idx := draw (uniform_int 1 (length X - 1)) in
       let* child :=
         mate self (length (X !!! 0)) (X !!! partner_of i partner_idx)
              (X' !!! i) in
       mret (<[i := child]> X'))%M
    X.

Module Examples.
Import sga detail.

(** An object on the tape library; the probabilities are one half. *)
Definition algo (gen : N) (elitism param_s : nat) (mut : mutation)
    (sel : selection) (cro : crossover) (int_dim : nat) (tape : list nat)
    : sga.t (L := Tape.lib) :=
  {| m_gen := gen; m_cr := 0.5; m_eta_c := 10; m_m := 0.5;
     m_param_m := 0.5; m_elitism := elitism; m_param_s := param_s;
     m_mutation := mut; m_selection := sel; m_crossover := cro;
     m_int_dim := int_dim; m_e := tape; m_seed := 0; m_verbosity := 0 |}.

(** One dimension in [0, 1]; the fitness is the coordinate itself. *)
Definition line : problem :=
  {| get_nx := 1; get_bounds := ([0], [1])%float; get_nf := 1; get_nc := 0;
     get_name := "line"; is_stochastic := false; problem_seed := 0;
     objective := fun _ x => x |}.

(** The same, stochastic: a seed other than zero adds one to the fitness. *)
Definition noisy_line : problem :=
  {| get_nx := 1; get_bounds := ([0], [1])%float; get_nf := 1; get_nc := 0;
     get_name := "noisy line"; is_stochastic := true; problem_seed := 0;
     objective := fun seed x =>
       if (seed =? 0)%N then x else map (fun v => (v + 1)%float) x |}.

(** A population whose cached fitness is the problem's at its seed. *)
Definition population_of (prob : problem) (X : list vector_double)
    : population :=
  {| get_problem := prob; get_x := X; get_f := map (fitness prob) X |}.

Definition three : population :=
  population_of line [[0.625]; [0.875]; [1]]%float.

Definition noisy_two : population :=
  population_of noisy_line [[0.25]; [0.75]]%float.

(** An object with the UNIFORM mutation, mutation probability [m] and
    [int_dim] trailing integer coordinates. *)
Definition mutator (m : double) (int_dim : nat) : sga.t (L := Tape.lib) :=
  {| m_gen := 1; m_cr := 0.5; m_eta_c := 10; m_m := m; m_param_m := 0.5;
     m_elitism := 1; m_param_s := 2; m_mutation := UNIFORM;
     m_selection := TRUNCATED; m_crossover := SINGLE;
     m_int_dim := int_dim; m_e := []; m_seed := 0; m_verbosity := 0 |}.

(** Two continuous coordinates in [0, 1] and an integer one in [0, 10]. *)
Definition mixed_bounds : vector_double * vector_double :=
  ([0; 0; 0], [1; 1; 10])%float.






End Examples.


(** * Properties *)

(** ** The order of binary64 values

    From the specification [SFcompare] of the primitive comparisons. *)

Module FloatOrder.

Ltac sf_cases e1 e2 e3 m1 m2 m3 :=
  destruct (Z.compare_spec e1 e2), (Z.compare_spec e2 e3),
    (Z.compare_spec e1 e3); try done; try lia;
  destruct (Pos.compare_spec m1 m2), (Pos.compare_spec m2 m3),
    (Pos.compare_spec m1 m3); simpl; try done; try lia.

Lemma SFcompare_refl x : sf_is_nan x = false -> SFcompare x x = Some Eq.
Proof.
  destruct x as [s|s| |s m e]; simpl; try done; intros _.
  - by destruct s.
  - destruct s; rewrite Z.compare_refl; fold (Pos.compare m m);
      by rewrite Pos.compare_refl.
Qed.

Lemma SFcompare_nan_l x y : sf_is_nan x = true -> SFcompare x y = None.
Proof. by destruct x. Qed.

Lemma SFcompare_nan_r x y : sf_is_nan y = true -> SFcompare x y = None.
Proof. by destruct x, y. Qed.

Lemma SFcompare_total x y :
  sf_is_nan x = false -> sf_is_nan y = false -> is_Some (SFcompare x y).
Proof. destruct x, y; simpl; try done; eauto. Qed.

Lemma SFcompare_antisym x y :
  SFcompare y x = option_map CompOpp (SFcompare x y).
Proof.
  destruct x as [s1|s1| |s1 m1 e1], y as [s2|s2| |s2 m2 e2]; simpl; try done;
    try (by destruct s1); try (by destruct s2); try (by destruct s1, s2).
  f_equal. fold (Pos.compare m1 m2) (Pos.compare m2 m1).
  rewrite (Z.compare_antisym e1 e2), (Pos.compare_antisym m1 m2).
  destruct s1, s2; simpl; try done;
    destruct (e1 ?= e2)%Z; simpl; try done; by destruct (m1 ?= m2)%positive.
Qed.

(** [x <= y] and [y <= z] compose; the result is [Eq] only for two [Eq]. *)
Lemma SFcompare_trans x y z c1 c2 :
  SFcompare x y = Some c1 -> SFcompare y z = Some c2 ->
  c1 <> Gt -> c2 <> Gt ->
  SFcompare x z = Some match c1, c2 with Eq, Eq => Eq | _, _ => Lt end.
Proof.
  destruct x as [s1|s1| |s1 m1 e1], y as [s2|s2| |s2 m2 e2],
    z as [s3|s3| |s3 m3 e3]; simpl; try done;
    try (by destruct s1, c1, c2; intros; simplify_eq);
    try (by destruct s2, c1, c2; intros; simplify_eq);
    try (by destruct s3, c1, c2; intros; simplify_eq);
    try (by destruct s1, s2, c1, c2; intros; simplify_eq);
    try (by destruct s2, s3, c1, c2; intros; simplify_eq);
    try (by destruct s1, s3, c1, c2; intros; simplify_eq);
    try (by destruct s1, s2, s3, c1, c2; intros; simplify_eq).
  fold (Pos.compare m1 m2) (Pos.compare m2 m3) (Pos.compare m1 m3).
  destruct s1, s2, s3, c1, c2; simpl; try done;
    sf_cases e1 e2 e3 m1 m2 m3.
Qed.

Lemma is_nan_spec (a : float) : is_nan a = sf_is_nan (Prim2SF a).
Proof.
  unfold is_nan. rewrite FloatAxioms.eqb_spec. unfold SFeqb.
  destruct (sf_is_nan (Prim2SF a)) eqn:E.
  - by rewrite (SFcompare_nan_l _ _ E).
  - by rewrite (SFcompare_refl _ E).
Qed.

Lemma ltb_Lt (a b : float) :
  (a <? b)%float = true <-> SFcompare (Prim2SF a) (Prim2SF b) = Some Lt.
Proof.
  rewrite FloatAxioms.ltb_spec. unfold SFltb.
  destruct (SFcompare _ _) as [[]|]; split; congruence.
Qed.

Lemma leb_not_Gt (a b : float) :
  (a <=? b)%float = true <->
  exists c, SFcompare (Prim2SF a) (Prim2SF b) = Some c /\ c <> Gt.
Proof.
  rewrite FloatAxioms.leb_spec. unfold SFleb.
  destruct (SFcompare _ _) as [[]|]; split; try congruence; eauto;
    intros (c & ? & ?); congruence.
Qed.

End FloatOrder.

(** ** [less_than_f] is a strict weak order *)

Lemma swo_asym {A} (cmp : A -> A -> bool) a b :
  strict_weak_order cmp -> cmp a b = true -> cmp b a = false.
Proof.
  intros [Hi Ht _] Hab. destruct (cmp b a) eqn:Hba; [|done].
  by rewrite <- (Hi a), (Ht a b a).
Qed.

Section less_than_f_order.
Import FloatOrder.

Lemma ltb_irrefl (a : float) : (a <? a)%float = false.
Proof.
  destruct (a <? a)%float eqn:E; [|done]. apply ltb_Lt in E.
  destruct (sf_is_nan (Prim2SF a)) eqn:N.
  - by rewrite (SFcompare_nan_l _ _ N) in E.
  - by rewrite (SFcompare_refl _ N) in E.
Qed.

Lemma ltb_trans (a b c : float) :
  (a <? b)%float = true -> (b <? c)%float = true -> (a <? c)%float = true.
Proof.
  rewrite !ltb_Lt. intros H1 H2.
  by rewrite (SFcompare_trans _ _ _ _ _ H1 H2).
Qed.

Lemma ltb_incomp (a b c : float) :
  is_nan a = false -> is_nan b = false -> is_nan c = false ->
  (a <? b)%float = false -> (b <? c)%float = false -> (a <? c)%float = false.
Proof.
  rewrite !is_nan_spec. intros Na Nb Nc H1 H2.
  destruct (a <? c)%float eqn:H3; [|done]. exfalso.
  apply ltb_Lt in H3.
  destruct (SFcompare_total _ _ Na Nb) as [c1 E1].
  destruct (SFcompare_total _ _ Nb Nc) as [c2 E2].
  assert (c1 <> Lt) as D1.
  { intros ->. apply ltb_Lt in E1. congruence. }
  assert (c2 <> Lt) as D2.
  { intros ->. apply ltb_Lt in E2. congruence. }
  pose proof (SFcompare_antisym (Prim2SF a) (Prim2SF b)) as A1.
  pose proof (SFcompare_antisym (Prim2SF b) (Prim2SF c)) as A2.
  pose proof (SFcompare_antisym (Prim2SF a) (Prim2SF c)) as A3.
  rewrite E1 in A1. rewrite E2 in A2. rewrite H3 in A3. simpl in *.
  assert (CompOpp c2 <> Gt) as D2' by by destruct c2.
  assert (CompOpp c1 <> Gt) as D1' by by destruct c1.
  rewrite (SFcompare_trans _ _ _ _ _ A2 A1 D2' D1') in A3.
  by destruct c1, c2.
Qed.

Lemma less_than_f_swo : strict_weak_order less_than_f.
Proof.
  split; unfold less_than_f.
  - intros a. destruct (is_nan a); simpl; [done|apply ltb_irrefl].
  - intros a b c.
    destruct (is_nan a), (is_nan b), (is_nan c); simpl; try done.
    apply ltb_trans.
  - intros a b c.
    destruct (is_nan a) eqn:?, (is_nan b) eqn:?, (is_nan c) eqn:?;
      simpl; try done.
    by apply ltb_incomp.
Qed.

(** A comparator that looks at a key through [less_than_f], as every
    [std::sort] call of the algorithm does. *)
Lemma key_cmp_swo {A} (key : A -> double) :
  strict_weak_order (fun a b => less_than_f (key a) (key b)).
Proof.
  destruct less_than_f_swo as [Hi Ht Hn].
  split; intros; eauto.
Qed.
End less_than_f_order.

(** ** The tape library keeps the promises of the standard *)

Lemma StronglySorted_ascending (cmp : nat -> nat -> bool) (v : list nat) :
  StronglySorted (fun a b => cmp b a = false) v -> ascending cmp v.
Proof.
  induction 1 as [|x v Hv IH Hx]; intros i j a b Hij Hi Hj.
  - by rewrite lookup_nil in Hi.
  - destruct j as [|j]; [lia|]. simpl in Hj.
    destruct i as [|i]; simpl in Hi.
    + injection Hi as <-. rewrite Forall_forall in Hx.
      apply Hx. eauto using list_elem_of_lookup_2.
    + eapply IH; [|done..]. lia.
Qed.

Lemma tape_lib_spec : StdLibSpec Tape.lib.
Proof.
  split; simpl.
  - intros a b e Hab. unfold Tape.draw_int.
    destruct (Tape.next e) as [r e']; simpl.
    pose proof (Nat.mod_upper_bound r (b - a + 1)). lia.
  - intros e. unfold Tape.draw_unsigned.
    destruct (Tape.next e) as [r e']; simpl.
    apply N.mod_lt. by vm_compute.
  - intros e. unfold Tape.draw_real.
    destruct (Tape.next e) as [r e']; cbn [fst].
    by destruct (r mod 4) as [|[|[|]]].
  - intros X e. unfold Tape.shuffle.
    destruct (Tape.next e) as [r e']; simpl. unfold rotate.
    by rewrite Permutation_app_comm, take_drop.
  - intros cmp v _. apply merge_sort_Permutation.
  - intros cmp v Hc. apply StronglySorted_ascending.
    assert (Transitive (fun a b => cmp b a = false)) as HT.
    { intros a b c Hab Hbc. by apply (swo_incomp _ Hc c b a). }
    assert (Total (fun a b => cmp b a = false)) as HTo.
    { intros a b. destruct (cmp b a) eqn:E; [|by left].
      right. by apply (swo_asym cmp b a). }
    apply (StronglySorted_merge_sort _).
Qed.

(** ** Loops and the engine monad *)

Lemma range_snoc (lo hi : nat) :
  lo <= hi -> range lo (S hi) = range lo hi ++ [hi].
Proof.
  intros H. unfold range. replace (S hi - lo) with (S (hi - lo)) by lia.
  rewrite seq_S. do 2 f_equal. lia.
Qed.

(** The invariant rule of a pure loop. *)
Lemma for_pure_ind {S} (I : nat -> S -> Prop) (lo hi : nat)
    (body : nat -> S -> S) (s : S) :
  lo <= hi -> I lo s ->
  (forall i s, lo <= i < hi -> I i s -> I (Datatypes.S i) (body i s)) ->
  I hi (for_pure lo hi body s).
Proof.
  intros Hle H0 Hstep. induction Hle as [|hi Hle IH].
  - unfold for_pure, range. by rewrite Nat.sub_diag.
  - unfold for_pure. rewrite range_snoc, fold_left_app by done. simpl.
    apply Hstep; [lia|]. apply IH. intros i s' Hi. apply Hstep. lia.
Qed.

Lemma for_pure_empty {S} (lo hi : nat) (body : nat -> S -> S) (s : S) :
  hi <= lo -> for_pure lo hi body s = s.
Proof.
  intros H. unfold for_pure, range.
  by replace (hi - lo) with 0 by lia.
Qed.

Section ok.
Context {L : StdLib}.

Lemma ok_mret {A} (a : A) (P : A -> Prop) : P a -> ok (mret a) P.
Proof. intros H e. by exists a, e. Qed.

Lemma ok_mbind {A B} (c : M A) (k : A -> M B) (P : A -> Prop)
    (Q : B -> Prop) :
  ok c P -> (forall a, P a -> ok (k a) Q) -> ok (mbind c k) Q.
Proof.
  intros Hc Hk e. destruct (Hc e) as (a & e' & Ec & Ha).
  unfold mbind. rewrite Ec. by apply Hk.
Qed.

Lemma ok_draw {A} (d : random_engine_type -> A * random_engine_type)
    (P : A -> Prop) :
  (forall e, P (d e).1) -> ok (draw d) P.
Proof.
  intros H e. unfold draw. specialize (H e).
  destruct (d e) as [a e']. by exists a, e'.
Qed.

Lemma ok_weaken {A} (c : M A) (P Q : A -> Prop) :
  ok c P -> (forall a, P a -> Q a) -> ok c Q.
Proof.
  intros Hc HPQ e. destruct (Hc e) as (a & e' & Ec & Ha).
  exists a, e'. auto.
Qed.

(** The invariant rule of a loop over a list of indices. *)
Lemma ok_for_each {S} (I : S -> Prop) (idx : list nat)
    (body : nat -> S -> M S) (s : S) :
  I s -> (forall i s, i ∈ idx -> I s -> ok (body i s) I) ->
  ok (for_each idx body s) I.
Proof.
  revert s. induction idx as [|i idx IH]; intros s Hs Hbody; simpl.
  - by apply ok_mret.
  - eapply ok_mbind.
    + apply Hbody; [left|done].
    + intros s' Hs'. apply IH; [done|].
      intros j s'' Hj. apply Hbody. by right.
Qed.

Lemma ok_for_range {S} (I : S -> Prop) (lo hi : nat)
    (body : nat -> S -> M S) (s : S) :
  I s -> (forall i s, lo <= i < hi -> I s -> ok (body i s) I) ->
  ok (for_range lo hi body s) I.
Proof.
  intros Hs Hbody. apply ok_for_each; [done|].
  intros i s' Hi. apply Hbody. unfold range in Hi.
  apply elem_of_seq in Hi. lia.
Qed.

Lemma ok_for_each_break {S} (I : S -> Prop) (idx : list nat)
    (body : nat -> S -> M (S * bool)) (s : S) :
  I s -> (forall i s, i ∈ idx -> I s -> ok (body i s) (fun r => I r.1)) ->
  ok (for_each_break idx body s) I.
Proof.
  revert s. induction idx as [|i idx IH]; intros s Hs Hbody; simpl.
  - by apply ok_mret.
  - eapply ok_mbind.
    + apply Hbody; [left|done].
    + intros [s' brk] Hs'. simpl in Hs'. destruct brk.
      * by apply ok_mret.
      * apply IH; [done|]. intros j s'' Hj. apply Hbody. by right.
Qed.

End ok.

(** A loop that writes [g i] at every index [i] of [lo .. hi). *)
Lemma for_pure_insert {A} (g : nat -> A) (lo hi : nat) (r0 : list A) :
  lo <= hi -> hi <= length r0 ->
  let r := for_pure lo hi (fun i r => <[i := g i]> r) r0 in
  length r = length r0 /\
  (forall i, lo <= i < hi -> r !! i = Some (g i)) /\
  (forall i, ~ lo <= i < hi -> r !! i = r0 !! i).
Proof.
  intros Hle Hhi. simpl.
  apply (for_pure_ind
    (fun k r => length r = length r0 /\
                (forall i, lo <= i < k -> r !! i = Some (g i)) /\
                (forall i, ~ lo <= i < k -> r !! i = r0 !! i))); [done| |].
  - split_and!; [done| |done]. intros i ?. lia.
  - intros k r Hk (Hlen & Hin & Hout). split_and!.
    + by rewrite length_insert.
    + intros i Hi. destruct (decide (i = k)) as [->|Hne].
      * apply list_lookup_insert_eq. lia.
      * rewrite list_lookup_insert_ne by done. apply Hin. lia.
    + intros i Hi. rewrite list_lookup_insert_ne by lia. apply Hout. lia.
Qed.

Lemma Forall_lookup_total_lt (n : nat) (v : list nat) (i : nat) :
  0 < n -> Forall (fun k => k < n) v -> v !!! i < n.
Proof.
  intros Hn Hv. rewrite list_lookup_total_alt.
  destruct (v !! i) as [k|] eqn:E; simpl; [|done].
  by eapply (Forall_lookup_1 (fun k => k < n)).
Qed.

Lemma Forall_swap_lt (n : nat) (v : list nat) (i j : nat) :
  0 < n -> Forall (fun k => k < n) v -> Forall (fun k => k < n) (swap v i j).
Proof.
  intros Hn Hv. unfold swap.
  apply Forall_insert; [apply Forall_insert|]; try done;
    by apply Forall_lookup_total_lt.
Qed.

Lemma length_swap {A} `{Inhabited A} (v : list A) (i j : nat) :
  length (swap v i j) = length v.
Proof. unfold swap. by rewrite !length_insert. Qed.

(** ** Selection *)

Section selection.
Context {L : StdLib} {LS : StdLibSpec L}.
Import sga detail.

Lemma sorted_indices_perm (key : nat -> double) (n : nat) :
  std_sort (fun a b => less_than_f (key a) (key b)) (seq 0 n) ≡ₚ seq 0 n.
Proof. apply std_sort_perm, key_cmp_swo. Qed.

Lemma sorted_indices_lt (key : nat -> double) (n : nat) :
  Forall (fun k => k < n)
    (std_sort (fun a b => less_than_f (key a) (key b)) (seq 0 n)).
Proof.
  rewrite sorted_indices_perm. apply Forall_seq. intros; lia.
Qed.

Lemma truncated_selection_ok (self : t) (F : list vector_double) :
  m_selection self = TRUNCATED -> 1 <= m_param_s self <= length F ->
  ok (perform_selection self F)
     (fun retval => length retval = length F /\
                    Forall (fun k => k < length F) retval).
Proof.
  intros Hsel Hps. unfold perform_selection. rewrite Hsel.
  apply ok_mret. rewrite length_replicate.
  set (sorted := std_sort _ _).
  destruct (for_pure_insert (fun i => sorted !!! (i mod m_param_s self))
              0 (length F) (replicate (length F) 0)) as (Hlen & Hin & _);
    [lia|by rewrite length_replicate|].
  rewrite length_replicate in Hlen. split; [done|].
  apply Forall_lookup_2. intros i k Hi.
  assert (i < length F) as Hlt.
  { rewrite <- Hlen. by eapply lookup_lt_Some. }
  rewrite Hin in Hi by lia. injection Hi as <-.
  apply Forall_lookup_total_lt; [lia|apply sorted_indices_lt].
Qed.

Lemma tournament_selection_ok (self : t) (F : list vector_double) :
  m_selection self = TOURNAMENT -> 1 <= m_param_s self <= length F ->
  ok (perform_selection self F)
     (fun retval => length retval = length F /\
                    Forall (fun k => k < length F) retval).
Proof.
  intros Hsel Hps. unfold perform_selection. rewrite Hsel.
  set (n := length F). assert (0 < n) as Hn by (unfold n; lia).
  set (I := fun s : list nat * list nat =>
              (length s.1 = n /\ Forall (fun k => k < n) s.1) /\
              (length s.2 = n /\ Forall (fun k => k < n) s.2)).
  eapply ok_mbind with (P := I).
  - apply ok_for_range.
    + unfold I; simpl. rewrite length_replicate, length_seq. split_and!; try done.
      * by apply Forall_replicate.
      * apply Forall_seq. intros; lia.
    + intros j [retval best_idxs] Hj ((Hl1 & Hf1) & (Hl2 & Hf2)).
      simpl in *.
      eapply ok_mbind
        with (P := fun b => length b = n /\ Forall (fun k => k < n) b).
      * apply ok_for_range; [done|].
        intros i b Hi (Hlb & Hfb). eapply ok_mbind.
        -- apply (ok_draw _ (fun _ => True)). done.
        -- intros index _. apply ok_mret. split.
           ++ by rewrite length_swap.
           ++ by apply Forall_swap_lt.
      * intros b (Hlb & Hfb). apply ok_mret. unfold I; simpl.
        split_and!; try done; [by rewrite length_insert|].
        apply Forall_insert; [done|].
        apply (for_pure_ind (fun _ w => w < n)) with (lo := 1);
          [lia|by apply Forall_lookup_total_lt|].
        intros i w _ Hw. destruct (vector_lt _ _); [|done].
        by apply Forall_lookup_total_lt.
  - intros [retval best_idxs] ((Hl1 & Hf1) & _). by apply ok_mret.
Qed.

End selection.

(** ** The operators always return *)

Section total.
Context {L : StdLib}.
Import sga detail.

Let total {A} (c : M A) : Prop := ok c (fun _ => True).

Lemma total_mret {A} (a : A) : total (mret a).
Proof. by apply ok_mret. Qed.

Lemma total_draw {A} (d : random_engine_type -> A * random_engine_type) :
  total (draw d).
Proof. by apply ok_draw. Qed.

Lemma total_mbind {A B} (c : M A) (k : A -> M B) :
  total c -> (forall a, total (k a)) -> total (mbind c k).
Proof. intros Hc Hk. eapply ok_mbind; [exact Hc|]. intros a _. apply Hk. Qed.

Lemma total_for_each {S} (idx : list nat) (body : nat -> S -> M S) (s : S) :
  (forall i s, total (body i s)) -> total (for_each idx body s).
Proof. intros H. apply ok_for_each; [done|]. intros i s' _ _. apply H. Qed.

Lemma total_for_each_break {S} (idx : list nat)
    (body : nat -> S -> M (S * bool)) (s : S) :
  (forall i s, total (body i s)) -> total (for_each_break idx body s).
Proof.
  intros H. apply ok_for_each_break; [done|]. intros i s' _ _.
  eapply ok_weaken; [apply H|done].
Qed.

Ltac total_step :=
  lazymatch goal with
  | |- total (mret _) => apply total_mret
  | |- total (draw _) => apply total_draw
  | |- total (mbind _ _) => apply total_mbind; [|intros ?]
  | |- total (for_range _ _ _ _) => apply total_for_each; intros ? ?
  | |- total (for_each _ _ _) => apply total_for_each; intros ? ?
  | |- total (for_each_break _ _ _) => apply total_for_each_break; intros ? ?
  | |- total (let '(_, _) := ?p in _) => destruct p
  | |- total (if ?b then _ else _) => destruct b
  | |- total (match ?p with (_, _) => _ end) => destruct p
  end.

Lemma perform_selection_total (self : t) (F : list vector_double) :
  total (perform_selection self F).
Proof.
  unfold perform_selection. destruct (m_selection self); repeat total_step.
Qed.

Lemma exponential_loop_total fuel cr dim parent2 child n l :
  total (exponential_loop fuel cr dim parent2 child n l).
Proof.
  revert child n l. induction fuel as [|fuel IH]; intros child n l; simpl;
    repeat total_step. apply IH.
Qed.

Lemma sbx_crossover_impl_total (self : t) parent1 parent2 bounds :
  total (sbx_crossover_impl self parent1 parent2 bounds).
Proof. unfold sbx_crossover_impl. repeat total_step. Qed.

Lemma perform_mutation_total (self : t) X bounds :
  total (perform_mutation self X bounds).
Proof.
  unfold perform_mutation. destruct (m_mutation self); repeat total_step.
Qed.

Lemma perform_crossover_total (self : t) X bounds :
  total (perform_crossover self X bounds).
Proof.
  unfold perform_crossover.
  destruct (m_crossover self); repeat total_step;
    first [apply exponential_loop_total | apply sbx_crossover_impl_total].
Qed.

End total.

(** ** Reinsertion *)

Lemma for_pure_S {S} (lo k : nat) (body : nat -> S -> S) (s : S) :
  lo <= k -> for_pure lo (Datatypes.S k) body s = body k (for_pure lo k body s).
Proof.
  intros H. unfold for_pure. by rewrite range_snoc, fold_left_app.
Qed.

(** A loop of [set_xf] writes the two sequences side by side. *)
Lemma for_pure_set_xf (gx gf : nat -> vector_double) (lo hi : nat)
    (pop : population) :
  lo <= hi ->
  for_pure lo hi (fun i pop => set_xf pop i (gx i) (gf i)) pop =
  {| get_problem := get_problem pop;
     get_x := for_pure lo hi (fun i r => <[i := gx i]> r) (get_x pop);
     get_f := for_pure lo hi (fun i r => <[i := gf i]> r) (get_f pop) |}.
Proof.
  intros Hle. induction Hle as [|hi Hle IH].
  - rewrite !for_pure_empty by done. by destruct pop.
  - rewrite !for_pure_S by done. rewrite IH. done.
Qed.

Section reinsertion.
Context {L : StdLib} {LS : StdLibSpec L}.
Import sga detail.

Lemma reinsertion_size (self : t) (pop : population) XNEW FNEW :
  m_elitism self <= size pop -> length (get_f pop) = size pop ->
  size (reinsertion self pop XNEW FNEW) = size pop /\
  length (get_f (reinsertion self pop XNEW FNEW)) = size pop /\
  get_problem (reinsertion self pop XNEW FNEW) = get_problem pop.
Proof.
  intros Hel Hf. unfold reinsertion.
  set (bp := std_sort _ (seq 0 (length (get_f pop)))).
  set (bo := std_sort _ (seq 0 (length FNEW))).
  rewrite (for_pure_set_xf _ _ 0 (m_elitism self)) by lia.
  set (pop1 := {| get_problem := get_problem pop |}).
  destruct (for_pure_insert (fun i => get_x pop !!! (bp !!! i)) 0
              (m_elitism self) (get_x pop)) as (Hx1 & _); [lia|done|].
  destruct (for_pure_insert (fun i => get_f pop !!! (bp !!! i)) 0
              (m_elitism self) (get_f pop)) as (Hf1 & _); [lia|lia|].
  assert (size pop1 = size pop) as Hs1 by (unfold pop1, size in *; simpl; lia).
  rewrite Hs1, for_pure_set_xf by done. unfold size; simpl.
  destruct (for_pure_insert (fun i => XNEW !!! (bo !!! i)) (m_elitism self)
              (size pop) (get_x pop1)) as (Hx2 & _); [lia|unfold pop1, size in *; simpl; lia|].
  destruct (for_pure_insert (fun i => FNEW !!! (bo !!! i)) (m_elitism self)
              (size pop) (get_f pop1)) as (Hf2 & _); [lia|unfold pop1, size in *; simpl; lia|].
  simpl in *. unfold size in *. split_and!; [lia|lia|done].
Qed.

(** The first [m_elitism] slots hold the parents the ranking puts first,
    with the fitness they had. *)
Lemma reinsertion_elite (self : t) (pop : population) XNEW FNEW (i : nat) :
  m_elitism self <= size pop -> length (get_f pop) = size pop ->
  i < m_elitism self ->
  let best_parents :=
    std_sort (fun a b => less_than_f ((get_f pop !!! a) !!! 0)
                                     ((get_f pop !!! b) !!! 0))
             (seq 0 (size pop)) in
  get_x (reinsertion self pop XNEW FNEW) !! i
    = Some (get_x pop !!! (best_parents !!! i)) /\
  get_f (reinsertion self pop XNEW FNEW) !! i
    = Some (get_f pop !!! (best_parents !!! i)).
Proof.
  intros Hel Hf Hi. simpl. unfold reinsertion. rewrite Hf.
  set (bp := std_sort _ (seq 0 (size pop))).
  set (bo := std_sort _ (seq 0 (length FNEW))).
  rewrite (for_pure_set_xf _ _ 0 (m_elitism self)) by lia.
  set (pop1 := {| get_problem := get_problem pop |}).
  destruct (for_pure_insert (fun i => get_x pop !!! (bp !!! i)) 0
              (m_elitism self) (get_x pop)) as (Hx1 & Hx1' & _); [lia|done|].
  destruct (for_pure_insert (fun i => get_f pop !!! (bp !!! i)) 0
              (m_elitism self) (get_f pop)) as (Hf1 & Hf1' & _); [lia|lia|].
  assert (size pop1 = size pop) as Hs1 by (unfold pop1, size in *; simpl; lia).
  rewrite Hs1, for_pure_set_xf by done. simpl.
  destruct (for_pure_insert (fun i => XNEW !!! (bo !!! i)) (m_elitism self)
              (size pop) (get_x pop1)) as (_ & _ & Hx2); [lia|unfold pop1, size in *; simpl; lia|].
  destruct (for_pure_insert (fun i => FNEW !!! (bo !!! i)) (m_elitism self)
              (size pop) (get_f pop1)) as (_ & _ & Hf2); [lia|unfold pop1, size in *; simpl; lia|].
  rewrite Hx2, Hf2 by lia. simpl. split; [apply Hx1'|apply Hf1']; lia.
Qed.

(** Slot [i] from [m_elitism] on holds the offspring that the ranking of the
    offspring puts at position [i]. *)
Lemma reinsertion_offspring (self : t) (pop : population) XNEW FNEW
    (i : nat) :
  m_elitism self <= i < size pop -> length (get_f pop) = size pop ->
  let best_offsprings :=
    std_sort (fun a b => less_than_f ((FNEW !!! a) !!! 0)
                                     ((FNEW !!! b) !!! 0))
             (seq 0 (length FNEW)) in
  get_x (reinsertion self pop XNEW FNEW) !! i
    = Some (XNEW !!! (best_offsprings !!! i)) /\
  get_f (reinsertion self pop XNEW FNEW) !! i
    = Some (FNEW !!! (best_offsprings !!! i)).
Proof.
  intros Hi Hf. simpl. unfold reinsertion.
  set (bp := std_sort _ (seq 0 (length (get_f pop)))).
  set (bo := std_sort _ (seq 0 (length FNEW))).
  rewrite (for_pure_set_xf _ _ 0 (m_elitism self)) by lia.
  set (pop1 := {| get_problem := get_problem pop |}).
  destruct (for_pure_insert (fun i => get_x pop !!! (bp !!! i)) 0
              (m_elitism self) (get_x pop)) as (Hx1 & _);
    [lia|unfold size in *; lia|].
  destruct (for_pure_insert (fun i => get_f pop !!! (bp !!! i)) 0
              (m_elitism self) (get_f pop)) as (Hf1 & _); [lia|lia|].
  assert (size pop1 = size pop) as Hs1 by (unfold pop1, size in *; simpl; lia).
  rewrite Hs1, for_pure_set_xf by lia. simpl.
  destruct (for_pure_insert (fun i => XNEW !!! (bo !!! i)) (m_elitism self)
              (size pop) (get_x pop1)) as (_ & Hx2 & _); [lia|unfold pop1, size in *; simpl; lia|].
  destruct (for_pure_insert (fun i => FNEW !!! (bo !!! i)) (m_elitism self)
              (size pop) (get_f pop1)) as (_ & Hf2 & _); [lia|unfold pop1, size in *; simpl; lia|].
  split; [apply Hx2|apply Hf2]; lia.
Qed.

End reinsertion.

(** ** The generation loop *)

Lemma incompatible_dec {L : StdLib} (self : sga.t) (pop : population) :
  Decision (incompatible self pop).
Proof. unfold incompatible. apply _. Defined.

Section generation.
Context {L : StdLib}.
Import sga detail.

(** Step 0 returns the population that [ranked_population] describes. *)
Lemma reevaluation_ranked (pop : population) e :
  well_formed pop ->
  exists e', reevaluation pop e = (inr (ranked_population pop e), e').
Proof.
  intros (Hf & _ & _). unfold reevaluation, ranked_population.
  destruct (is_stochastic (get_problem pop)); [|by eexists].
  unfold mbind, draw. destruct (uniform_unsigned e) as [seed e1]. simpl.
  eexists. unfold mret. do 2 f_equal.
  set (prob := set_seed (get_problem pop) seed).
  set (n := length (get_x pop)).
  change (size (set_problem pop (set_seed (get_problem pop) seed))) with n.
  pose proof (for_pure_ind
    (fun k p => get_problem p = prob /\ get_x p = get_x pop /\
                length (get_f p) = n /\
                forall i, i < k ->
                  get_f p !! i = Some (fitness prob (get_x pop !!! i)))
    0 n
    (fun j pop => set_xf pop j (get_x pop !!! j)
                    (fitness (get_problem pop) (get_x pop !!! j)))
    (set_problem pop prob)) as Hloop.
  destruct Hloop as (Hp & Hx & Hl & Hfi); [lia| |..].
  - simpl. split_and!; try done. intros; lia.
  - intros k p Hk (Hp & Hx & Hl & Hfi). simpl. rewrite Hp, Hx.
    split_and!; try done.
    + apply list_insert_id'. intros Hlt.
      by apply list_lookup_lookup_total_lt.
    + by rewrite length_insert.
    + intros i Hi. destruct (decide (i = k)) as [->|Hne].
      * apply list_lookup_insert_eq. lia.
      * rewrite list_lookup_insert_ne by done. apply Hfi. lia.
  - unfold reevaluated. fold prob.
    destruct (for_pure _ _ _ _) as [p x f]. simpl in *. subst p x.
    f_equal. apply list_eq. intros i. rewrite list_lookup_fmap.
    destruct (decide (i < n)) as [Hi|Hi].
    + rewrite Hfi by done.
      by rewrite (list_lookup_lookup_total_lt (get_x pop) i).
    + rewrite !lookup_ge_None_2; [done|unfold n in *; lia|lia].
Qed.

Lemma reevaluation_ok (pop : population) :
  ok (reevaluation pop)
     (fun pop0 => is_stochastic (get_problem pop) = false -> pop0 = pop).
Proof.
  unfold reevaluation. destruct (is_stochastic (get_problem pop)).
  - eapply ok_mbind; [by apply (ok_draw _ (fun _ => True))|].
    intros seed _. by apply ok_mret.
  - by apply ok_mret.
Qed.

(** A generation ends in the reinsertion into what step 0 returned. *)
Lemma generation_reinserts (self : t) (pop : population) e :
  exists pop0 e0 XNEW FNEW e',
    reevaluation pop e = (inr pop0, e0) /\
    generation self pop e = (inr (reinsertion self pop0 XNEW FNEW), e').
Proof.
  unfold generation.
  destruct (reevaluation_ok pop e) as (pop0 & e0 & H0 & _).
  unfold mbind at 1. rewrite H0. exists pop0, e0.
  assert (ok (let* selected_idx := perform_selection self (get_f pop0) in
              let* XNEW :=
                perform_crossover self
                  (for_pure 0 (length (get_x pop0))
                     (fun i XNEW =>
                        <[i := get_x pop0 !!! (selected_idx !!! i)]> XNEW)
                     (get_x pop0))
                  (get_bounds (get_problem pop0)) in
              let* XNEW :=
                perform_mutation self XNEW (get_bounds (get_problem pop0)) in
              mret (reinsertion self pop0 XNEW
                      (for_pure 0 (length XNEW)
                         (fun i FNEW =>
                            <[i := fitness (get_problem pop0) (XNEW !!! i)]>
                              FNEW)
                         (get_f pop0))))%M
             (fun pop' => exists XNEW FNEW,
                pop' = reinsertion self pop0 XNEW FNEW)) as Hrest.
  { eapply ok_mbind; [apply perform_selection_total|]. intros idx _.
    eapply ok_mbind; [apply perform_crossover_total|]. intros X1 _.
    eapply ok_mbind; [apply perform_mutation_total|]. intros X2 _.
    apply ok_mret. eauto. }
  destruct (Hrest e0) as (pop' & e' & Hgen & XNEW & FNEW & ->).
  exists XNEW, FNEW, e'. split; [done|exact Hgen].
Qed.

Lemma generation_total (self : t) (pop : population) e :
  exists pop' e', generation self pop e = (inr pop', e').
Proof.
  destruct (generation_reinserts self pop e)
    as (pop0 & e0 & XNEW & FNEW & e' & _ & Hgen).
  eauto.
Qed.

Lemma generation_loop_no_throw (fuel : nat) (self : t) (i : N)
    (pop : population) e x e' :
  generation_loop fuel self i pop e <> Some (inl x, e').
Proof.
  revert i pop e. induction fuel as [|fuel IH]; intros i pop e; simpl.
  - done.
  - destruct (i <=? m_gen self)%N; [|done].
    destruct (generation_total self pop e) as (pop' & e1 & ->). apply IH.
Qed.

(** The loop ends within [m_gen] turns when the counter cannot wrap. *)
Lemma generation_loop_returns (fuel : nat) (self : t) (i : N)
    (pop : population) e :
  (m_gen self < 2 ^ 32 - 1)%N -> (1 <= i)%N ->
  N.to_nat (m_gen self + 1 - i) < fuel ->
  exists pop' e', generation_loop fuel self i pop e = Some (inr pop', e').
Proof.
  intros Hgen. revert i pop e.
  induction fuel as [|fuel IH]; intros i pop e Hi Hfuel; [lia|]. simpl.
  destruct (N.leb_spec i (m_gen self)) as [Hle|Hgt]; [|eauto].
  destruct (generation_total self pop e) as (pop' & e1 & ->).
  rewrite N.mod_small by lia. apply IH; lia.
Qed.

(** At [m_gen = 2^32 - 1] the counter wraps before the test fails. *)
Lemma generation_loop_wraps (fuel : nat) (self : t) (i : N)
    (pop : population) e :
  m_gen self = (2 ^ 32 - 1)%N -> (i < 2 ^ 32)%N ->
  generation_loop fuel self i pop e = None.
Proof.
  intros Hgen. revert i pop e.
  induction fuel as [|fuel IH]; intros i pop e Hi; [done|]. simpl.
  destruct (N.leb_spec i (m_gen self)) as [Hle|Hgt]; [|lia].
  destruct (generation_total self pop e) as (pop' & e1 & ->).
  apply IH. by apply N.mod_lt.
Qed.

Lemma evolve_incompatible (fuel : nat) (self : t) (pop : population) :
  incompatible self pop ->
  evolve fuel self pop = Some (inl invalid_argument, m_e self).
Proof.
  unfold incompatible, evolve, mthrow.
  destruct (Nat.eqb_spec (get_nc (get_problem pop)) 0); cbn [negb]; [|done].
  destruct (Nat.eqb_spec (get_nf (get_problem pop)) 1); cbn [negb]; [|done].
  destruct (Nat.ltb_spec (size pop) 2); [done|].
  destruct (Nat.ltb_spec (size pop) (m_elitism self)); [done|].
  destruct (Nat.ltb_spec (size pop) (m_param_s self)); [done|].
  destruct (bool_decide_reflect (m_crossover self = SBX)),
    (Nat.eqb_spec (size pop mod 2) 0); cbn [negb andb]; try done;
    intros [|[|[|[|[|[]]]]]]; done || lia.
Qed.

Lemma evolve_compatible (fuel : nat) (self : t) (pop : population) :
  ~ incompatible self pop ->
  evolve fuel self pop =
    if (m_gen self =? 0)%N then Some (inr pop, m_e self)
    else generation_loop fuel self 1 pop (m_e self).
Proof.
  unfold incompatible, evolve, mret. intros H.
  destruct (Nat.eqb_spec (get_nc (get_problem pop)) 0); cbn [negb]; [|tauto].
  destruct (Nat.eqb_spec (get_nf (get_problem pop)) 1); cbn [negb]; [|tauto].
  destruct (Nat.ltb_spec (size pop) 2); [tauto|].
  destruct (Nat.ltb_spec (size pop) (m_elitism self)); [lia|].
  destruct (Nat.ltb_spec (size pop) (m_param_s self)); [lia|].
  destruct (bool_decide_reflect (m_crossover self = SBX)),
    (Nat.eqb_spec (size pop mod 2) 0); cbn [negb andb]; try done; tauto.
Qed.

(** [evolve] returns or throws within [m_gen + 1] turns of the loop when
    the counter cannot wrap. *)
Lemma evolve_returns (fuel : nat) (self : t) (pop : population) :
  (m_gen self < 2 ^ 32 - 1)%N -> N.to_nat (m_gen self) < fuel ->
  exists r e', evolve fuel self pop = Some (r, e').
Proof.
  intros Hgen Hfuel. destruct (incompatible_dec self pop) as [Hi|Hc].
  - rewrite (evolve_incompatible fuel self pop Hi). eauto.
  - rewrite (evolve_compatible fuel self pop Hc).
    destruct (m_gen self =? 0)%N; [eauto|].
    destruct (generation_loop_returns fuel self 1 pop (m_e self))
      as (pop' & e' & ->); [done|lia|lia|eauto].
Qed.

(** With [m_gen = 1] a run of [evolve] that passes the entry checks is one
    generation. *)
Lemma evolve_single_generation (fuel : nat) (self : t) (pop : population) :
  ~ incompatible self pop -> m_gen self = 1%N ->
  evolve (S (S fuel)) self pop = Some (generation self pop (m_e self)).
Proof.
  intros Hc Hgen. rewrite (evolve_compatible _ self pop Hc), Hgen.
  cbn [N.eqb Pos.eqb generation_loop]. rewrite Hgen.
  destruct (generation_total self pop (m_e self)) as (pop' & e' & ->).
  reflexivity.
Qed.

(** The constructor refuses a crossover probability above 1 or below 0,
    whatever the other arguments. *)
Lemma constructor_rejects_cr (gen : N) (cr eta_c m param_m : double)
    (elitism param_s : nat) (mutation selection crossover : string)
    (int_dim : nat) (seed : N) :
  (1 <? cr)%float || (cr <? 0)%float = true ->
  sga.sga gen cr eta_c m param_m elitism param_s mutation selection
          crossover int_dim seed = inl invalid_argument.
Proof. intros H. unfold sga.sga. by rewrite H. Qed.

End generation.

(** ** The fuel of the exponential crossover is never used up *)

Lemma exponential_loop_fuel {L : StdLib} (fuel1 fuel2 : nat) (cr : double)
    (dim : nat) (parent2 child : vector_double) (n l : nat) e :
  dim <= l + 1 + fuel1 -> dim <= l + 1 + fuel2 ->
  sga.exponential_loop fuel1 cr dim parent2 child n l e =
  sga.exponential_loop fuel2 cr dim parent2 child n l e.
Proof.
  revert fuel2 child n l e.
  induction fuel1 as [|fuel1 IH]; intros fuel2 child n l e H1 H2;
    destruct fuel2 as [|fuel2]; simpl; unfold mbind, draw;
    destruct (uniform_real e) as [r e1];
    destruct (r <? cr)%float; simpl; try done;
    destruct (Nat.ltb_spec (l + 1) dim); try done; try lia.
  apply IH; lia.
Qed.


(** ** Mutation and the integer part of the SBX crossover *)

Section operators.
Context {L : StdLib}.
Import sga detail.

(** Whatever the kind, the probability [m_m] and the engine, a mutation
    changes no coordinate but the first of each individual. *)
Lemma perform_mutation_keeps_tail (self : t) (X : list vector_double)
    (bounds : vector_double * vector_double) :
  ok (perform_mutation self X bounds)
     (fun X' => length X' = length X /\
                forall i j, (X' !!! i) !! S j = (X !!! i) !! S j).
Proof.
  unfold perform_mutation. apply ok_for_range; [done|].
  intros i X' _ (Hlen & Htail).
  destruct (m_mutation self); try by apply ok_mret.
  destruct (length (X !!! 0) - m_int_dim self) as [|n]; [by apply ok_mret|].
  unfold range. rewrite Nat.sub_0_r. simpl.
  eapply ok_mbind
    with (P := fun p : list vector_double * bool =>
                 (length p.1 = length X /\
                  forall i j, (p.1 !!! i) !! S j = (X !!! i) !! S j) /\
                 p.2 = true).
  - eapply ok_mbind; [by apply (ok_draw _ (fun _ => True))|].
    intros r _. apply ok_mret. simpl. split_and!; [|  |done].
    + by rewrite length_insert.
    + intros i' j. destruct (decide (i = i')) as [<-|Hne].
      * destruct (decide (i < length X')) as [Hi|Hi].
        -- rewrite list_lookup_total_insert_eq by done.
           rewrite list_lookup_insert_ne by done. apply Htail.
        -- rewrite list_insert_id'; [apply Htail|lia].
      * rewrite list_lookup_total_insert_ne by done. apply Htail.
  - intros [X'' brk] (HI & Hbrk). simpl in Hbrk. subst brk.
    by apply ok_mret.
Qed.

End operators.


Lemma for_pure_inv {S} (I : S -> Prop) (lo hi : nat) (body : nat -> S -> S)
    (s : S) :
  I s -> (forall i s, lo <= i < hi -> I s -> I (body i s)) ->
  I (for_pure lo hi body s).
Proof.
  intros Hs Hbody. destruct (decide (lo <= hi)) as [Hle|Hgt].
  - by apply (for_pure_ind (fun _ => I)).
  - by rewrite for_pure_empty by lia.
Qed.

Lemma lookup_insert_own {A} `{Inhabited A} (l p : list A) (i j : nat) :
  l !! j = p !! j -> <[i := p !!! i]> l !! j = p !! j.
Proof.
  intros Hj. destruct (decide (i = j)) as [->|Hne].
  - destruct (decide (j < length l)) as [Hlt|Hge].
    + rewrite list_lookup_insert_eq by done.
      destruct (lookup_lt_is_Some_2 l j Hlt) as [v Hv].
      rewrite Hv in Hj. rewrite <- Hj. f_equal.
      by apply list_lookup_total_correct.
    + by rewrite list_insert_id' by lia.
  - by rewrite list_lookup_insert_ne.
Qed.

Section sbx_integer_part.
Context {L : StdLib} {LS : StdLibSpec L}.
Import sga detail.

(** X18.  When the integer part is no longer than the continuous part, no
    coordinate of the integer part is ever exchanged: each child ends with
    the integer coordinates of its own parent, whatever is drawn. *)
Lemma sbx_keeps_integer_part (self : t) (parent1 parent2 : vector_double)
    (bounds : vector_double * vector_double) :
  m_int_dim self <= length parent1 - m_int_dim self ->
  ok (sbx_crossover_impl self parent1 parent2 bounds)
     (fun children =>
        forall j, length parent1 - m_int_dim self <= j ->
                  children.1 !! j = parent1 !! j /\
                  children.2 !! j = parent2 !! j).
Proof.
  intros Hdi. unfold sbx_crossover_impl.
  set (Di := m_int_dim self) in *. set (Dc := length parent1 - Di) in *.
  set (I := fun c : vector_double * vector_double =>
              forall j, Dc <= j ->
                        c.1 !! j = parent1 !! j /\ c.2 !! j = parent2 !! j).
  assert (I (parent1, parent2)) as H0 by done.
  assert (forall c i a b, I c -> i < Dc -> I (<[i := a]> c.1, <[i := b]> c.2))
    as Hlow.
  { intros c i a b Hc Hi j Hj. simpl.
    rewrite !list_lookup_insert_ne by lia. by apply Hc. }
  eapply ok_mbind; [by apply (ok_draw _ (fun _ => True))|]. intros r _.
  eapply ok_mbind with (P := I).
  - destruct (r <=? m_cr self)%float; [|by apply ok_mret].
    apply ok_for_range; [done|]. intros i [c1 c2] Hi Hc.
    eapply ok_mbind; [by apply (ok_draw _ (fun _ => True))|]. intros r1 _.
    destruct (_ && _ && _); [|by apply ok_mret].
    destruct (parent1 !!! i <? parent2 !!! i)%float; cbv beta iota;
      (eapply ok_mbind; [by apply (ok_draw _ (fun _ => True))|];
       intros rand01 _;
       eapply ok_mbind; [by apply (ok_draw _ (fun _ => True))|];
       intros r2 _;
       destruct (r2 <=? 0.5)%float; apply ok_mret;
       (apply (Hlow (c1, c2)); [done|lia])).
  - intros [c01 c02] Hc0. apply ok_for_range; [done|].
    intros i [c1 c2] Hi Hc.
    eapply ok_mbind; [by apply (ok_draw _ (fun _ => True))|]. intros r1 _.
    destruct (r1 <=? m_cr self)%float.
    + eapply ok_mbind with (P := fun s => s <= Di - 1).
      { apply ok_draw. intros e. apply uniform_int_range. lia. }
      intros site1 Hs1.
      eapply ok_mbind with (P := fun s => s <= Di - 1).
      { apply ok_draw. intros e. apply uniform_int_range. lia. }
      intros site2 Hs2.
      assert (0 < Di) as HDi by (unfold Dc in *; lia).
      destruct (site2 <? site1); cbv beta iota; apply ok_mret;
        repeat (apply for_pure_inv;
                [|intros k [d1 d2] Hk Hd; apply (Hlow (d1, d2)); [done|lia]]);
        done.
    + apply ok_mret. intros j Hj. simpl.
      destruct (Hc j Hj) as [H1 H2]. simpl in H1, H2.
      split; by apply lookup_insert_own.
Qed.

End sbx_integer_part.


(** * Main theorems *)

(** ** Entry validation of [evolve] *)

(** C5.  [evolve] throws [invalid_argument] exactly when the problem and the
    population are incompatible: the problem has constraints, it has more
    or fewer than one objective, the population has fewer than two
    individuals, [m_elitism] or [m_param_s] exceeds its size, or the
    crossover is SBX and the size is odd.  It throws nothing else, and when
    it throws the engine is the one it started from; the population was
    passed by value and none is returned. *)
Theorem evolve_throws_iff_incompatible {L : StdLib} (fuel : nat)
    (self : sga.t) (pop : population) :
  ((exists e', sga.evolve fuel self pop = Some (inl invalid_argument, e'))
   <-> incompatible self pop) /\
  (forall x e', sga.evolve fuel self pop = Some (inl x, e') ->
                x = invalid_argument /\ e' = sga.m_e self).
Proof.
  destruct (incompatible_dec self pop) as [Hi|Hc].
  - rewrite (evolve_incompatible fuel self pop Hi). split.
    + split; eauto.
    + intros x e' [= <- <-]. done.
  - rewrite (evolve_compatible fuel self pop Hc).
    destruct (sga.m_gen self =? 0)%N.
    + split; [split; [intros (e' & [=])|done]|intros x e' [=]].
    + split; [split; [|done]|].
      * intros (e' & He). by apply generation_loop_no_throw in He.
      * intros x e' He. by apply generation_loop_no_throw in He.
Qed.

(** C6.  With [m_gen = 0], on a population that passes the entry checks,
    [evolve] returns the population it was given, decision vectors and
    fitness vectors in their order, whatever the fuel, and leaves the
    engine alone. *)
Theorem evolve_gen_zero {L : StdLib} (fuel : nat) (self : sga.t)
    (pop : population) :
  sga.m_gen self = 0%N -> ~ incompatible self pop ->
  sga.evolve fuel self pop = Some (inr pop, sga.m_e self).
Proof.
  intros Hgen Hc. rewrite (evolve_compatible fuel self pop Hc).
  by rewrite Hgen.
Qed.

Lemma evolve_gen_zero_witness :
  sga.evolve 0
    (Examples.algo 0 1 2 detail.UNIFORM detail.TRUNCATED detail.SBX 0 [7])
    (Examples.population_of Examples.line [[0.5]; [0.25]]%float)
  = Some (inr (Examples.population_of Examples.line [[0.5]; [0.25]]%float),
          [7]).
Proof.
  apply (evolve_gen_zero (L := Tape.lib) 0
           (Examples.algo 0 1 2 detail.UNIFORM detail.TRUNCATED detail.SBX
              0 [7])
           (Examples.population_of Examples.line [[0.5]; [0.25]]%float)).
  - reflexivity.
  - intros [H|[H|[H|[H|[H|[_ H]]]]]]; vm_compute in H; try lia; by apply H.
Defined.

(** ** Elitism *)

(** C8, amended.  One generation leaves in slots [0 .. m_elitism) the
    individuals that a ranking by [less_than_f] puts first, with their
    decision vectors and their fitness, and the population keeps its size.
    What is ranked is the population as step 0 leaves it: the population
    itself, cached fitness and all, when the problem is not stochastic, and
    the population evaluated again under the new seed when it is. *)
Theorem elitism_invariant {L : StdLib} {LS : StdLibSpec L} (self : sga.t)
    (pop : population) (e : random_engine_type) :
  well_formed pop ->
  sga.m_elitism self <= size pop ->
  exists pop' e',
    sga.generation self pop e = (inr pop', e') /\
    size pop' = size pop /\
    elite_kept self (ranked_population pop e) pop' /\
    (is_stochastic (get_problem pop) = false -> elite_kept self pop pop').
Proof.
  intros Hwf Hel.
  destruct (generation_reinserts self pop e)
    as (pop0 & e0 & XNEW & FNEW & e' & H0 & Hgen).
  destruct (reevaluation_ranked pop e Hwf) as (e0' & H0').
  rewrite H0' in H0. injection H0 as <- <-.
  set (pop0 := ranked_population pop e) in *.
  assert (size pop0 = size pop) as Hsize.
  { unfold pop0, ranked_population.
    by destruct (is_stochastic (get_problem pop)). }
  assert (length (get_f pop0) = size pop0) as Hf.
  { unfold pop0, ranked_population. destruct Hwf as (Hf & _).
    destruct (is_stochastic (get_problem pop)); [|done].
    unfold size. simpl. by rewrite length_map. }
  exists (sga.reinsertion self pop0 XNEW FNEW), e'.
  assert (elite_kept self pop0 (sga.reinsertion self pop0 XNEW FNEW)) as Hk.
  { set (bp := std_sort (by_fitness (get_f pop0)) (seq 0 (size pop0))).
    assert (bp ≡ₚ seq 0 (size pop0)) as Hperm by apply sorted_indices_perm.
    exists bp. split_and!; [done|apply std_sort_ascending, key_cmp_swo|].
    intros i Hi. exists (bp !!! i).
    assert (length bp = size pop0) as Hlen by by rewrite Hperm, length_seq.
    assert (bp !!! i < size pop0) as Hlt.
    { apply Forall_lookup_total_lt; [lia|apply sorted_indices_lt]. }
    destruct (reinsertion_elite self pop0 XNEW FNEW i) as [Hx Hfi];
      [lia|done|done|].
    split_and!.
    - apply list_lookup_lookup_total_lt. lia.
    - rewrite Hx. symmetry. by apply list_lookup_lookup_total_lt.
    - rewrite Hfi. symmetry. apply list_lookup_lookup_total_lt.
      rewrite Hf. exact Hlt. }
  split_and!; [done| |done|].
  - rewrite <- Hsize. apply reinsertion_size; [lia|done].
  - intros Hdet. revert Hk. unfold pop0, ranked_population.
    by rewrite Hdet.
Qed.

Lemma elitism_invariant_witness :
  exists pop' e',
    sga.generation
      (Examples.algo 1 1 3 detail.GAUSSIAN detail.TRUNCATED detail.SINGLE 0
         [])
      Examples.three [0; 1; 0; 1; 0; 1] = (inr pop', e') /\
    size pop' = size Examples.three /\
    elite_kept
      (Examples.algo 1 1 3 detail.GAUSSIAN detail.TRUNCATED detail.SINGLE 0
         [])
      (ranked_population Examples.three [0; 1; 0; 1; 0; 1]) pop' /\
    (is_stochastic (get_problem Examples.three) = false ->
     elite_kept
       (Examples.algo 1 1 3 detail.GAUSSIAN detail.TRUNCATED detail.SINGLE
          0 [])
       Examples.three pop').
Proof.
  apply (elitism_invariant (L := Tape.lib) (LS := tape_lib_spec)
           (Examples.algo 1 1 3 detail.GAUSSIAN detail.TRUNCATED
              detail.SINGLE 0 [])
           Examples.three [0; 1; 0; 1; 0; 1]).
  - split_and!; [reflexivity|repeat constructor..].
  - vm_compute. lia.
Defined.

(** Two float lists that a test on their first element tells apart. *)
Ltac differ_at_head H :=
  apply (f_equal (fun o : option (list float) =>
                    match o with
                    | Some (v :: _) => Some v
                    | _ => None
                    end)) in H;
  simpl in H;
  match type of H with
  | Some ?a = Some _ =>
      apply (f_equal (fun o => match o with
                               | Some v => (v =? a)%float
                               | None => false
                               end)) in H;
      vm_compute in H; discriminate H
  | _ => discriminate H
  end.

(** C8, the claim as it is written, fails on a stochastic problem: the
    generation re-seeds the problem and re-evaluates the population before
    it ranks, so the fitness kept in slot 0 is the new one ([1.25]) and
    none of the cached ones ([0.25] and [0.75]). *)
Lemma elitism_stochastic_counterexample :
  exists pop' e',
    sga.generation
      (Examples.algo 1 1 2 detail.GAUSSIAN detail.TRUNCATED detail.SINGLE 0
         [])
      Examples.noisy_two [1; 0; 1; 0; 1] = (inr pop', e') /\
    ~ elite_kept
        (Examples.algo 1 1 2 detail.GAUSSIAN detail.TRUNCATED detail.SINGLE
           0 [])
        Examples.noisy_two pop'.
Proof.
  eexists _, _. split; [vm_compute; reflexivity|].
  intros (bp & _ & _ & H). destruct (H 0) as (k & _ & _ & Hf); [simpl; lia|].
  destruct k as [|[|k]]; vm_compute in Hf; differ_at_head Hf.
Qed.

(** ** Selection *)

(** C7.  With the TRUNCATED kind and [1 <= m_param_s <= NP],
    [perform_selection] draws nothing and returns the list of length [NP]
    whose entry [i] is entry [i mod m_param_s] of the indices [0 .. NP)
    sorted in ascending order of [F[i][0]] under [less_than_f]; with
    [m_param_s = NP] it returns that sorted permutation itself. *)
Theorem truncated_selection_cyclic {L : StdLib} {LS : StdLibSpec L}
    (self : sga.t) (F : list vector_double) (e : random_engine_type) :
  sga.m_selection self = detail.TRUNCATED ->
  1 <= sga.m_param_s self <= length F ->
  exists sorted retval : list nat,
    sorted ≡ₚ seq 0 (length F) /\
    ascending (by_fitness F) sorted /\
    sga.perform_selection self F e = (inr retval, e) /\
    length retval = length F /\
    (forall i, i < length F ->
               retval !! i = sorted !! (i mod sga.m_param_s self)) /\
    (sga.m_param_s self = length F -> retval = sorted).
Proof.
  intros Hsel Hps.
  set (sorted := std_sort (by_fitness F) (seq 0 (length F))).
  assert (sorted ≡ₚ seq 0 (length F)) as Hperm by apply sorted_indices_perm.
  assert (length sorted = length F) as Hlen by by rewrite Hperm, length_seq.
  destruct (for_pure_insert
              (fun i => sorted !!! (i mod sga.m_param_s self))
              0 (length F) (replicate (length F) 0))
    as (Hl & Hin & _); [lia|by rewrite length_replicate|].
  rewrite length_replicate in Hl.
  exists sorted,
    (for_pure 0 (length F)
       (fun i r => <[i := sorted !!! (i mod sga.m_param_s self)]> r)
       (replicate (length F) 0)).
  split_and!.
  - done.
  - apply std_sort_ascending, key_cmp_swo.
  - unfold sga.perform_selection. rewrite Hsel, length_replicate. done.
  - done.
  - intros i Hi. rewrite Hin by lia. symmetry.
    apply list_lookup_lookup_total_lt.
    pose proof (Nat.mod_upper_bound i (sga.m_param_s self)). lia.
  - intros Hall. apply list_eq. intros i.
    destruct (decide (i < length F)) as [Hi|Hi].
    + rewrite Hin by lia. rewrite Hall, Nat.mod_small by done. symmetry.
      apply list_lookup_lookup_total_lt. lia.
    + rewrite !lookup_ge_None_2; [done|lia|lia].
Qed.

Lemma truncated_selection_cyclic_witness :
  exists sorted retval : list nat,
    sorted ≡ₚ seq 0 4 /\
    ascending (by_fitness [[3]; [1]; [nan]; [2]]%float) sorted /\
    sga.perform_selection
      (Examples.algo 1 1 2 detail.UNIFORM detail.TRUNCATED detail.SINGLE 0
         [])
      [[3]; [1]; [nan]; [2]]%float [5] = (inr retval, [5]) /\
    length retval = 4 /\
    (forall i, i < 4 -> retval !! i = sorted !! (i mod 2)) /\
    (2 = 4 -> retval = sorted).
Proof.
  apply (truncated_selection_cyclic (L := Tape.lib) (LS := tape_lib_spec)
           (Examples.algo 1 1 2 detail.UNIFORM detail.TRUNCATED
              detail.SINGLE 0 [])
           [[3]; [1]; [nan]; [2]]%float [5]).
  - reflexivity.
  - simpl. lia.
Defined.

(** C10.  For both selection kinds and [1 <= m_param_s <= NP],
    [perform_selection] returns [NP] entries, each of them an index below
    [NP], whatever the fitness values are. *)
Theorem perform_selection_valid_indices {L : StdLib} {LS : StdLibSpec L}
    (self : sga.t) (F : list vector_double) (e : random_engine_type) :
  1 <= sga.m_param_s self <= length F ->
  exists retval e',
    sga.perform_selection self F e = (inr retval, e') /\
    length retval = length F /\
    Forall (fun k => k < length F) retval.
Proof.
  intros Hps. destruct (sga.m_selection self) eqn:Hsel.
  - apply (tournament_selection_ok self F Hsel Hps e).
  - apply (truncated_selection_ok self F Hsel Hps e).
Qed.

Lemma perform_selection_valid_indices_witness :
  exists retval e',
    sga.perform_selection
      (Examples.algo 1 1 2 detail.UNIFORM detail.TOURNAMENT detail.SINGLE 0
         [])
      [[3]; [nan]; [1]; [nan]]%float [1; 2; 3; 4; 5; 6; 7; 8]
    = (inr retval, e') /\
    length retval = 4 /\
    Forall (fun k => k < 4) retval.
Proof.
  apply (perform_selection_valid_indices (L := Tape.lib)
           (LS := tape_lib_spec)
           (Examples.algo 1 1 2 detail.UNIFORM detail.TOURNAMENT
              detail.SINGLE 0 [])
           [[3]; [nan]; [1]; [nan]]%float [1; 2; 3; 4; 5; 6; 7; 8]).
  simpl. lia.
Defined.

(** ** Where the code departs from its documentation *)

(** C1.  One generation on the population [0.625; 0.875; 1] of the line
    problem, with [m_elitism = 1] and the mutation draws 0.25, 0.5, 0.75:
    the offspring are [0.25; 0.5; 0.75], of ranks 0, 1 and 2.  Slot 1 takes
    the offspring of rank 1 and slot 2 the one of rank 2: slot [i] reads
    [best_offsprings[i]], not [best_offsprings[i - m_elitism]], and the best
    offspring, better than every parent, is lost. *)
Theorem reinsertion_drops_best_offspring :
  exists pop' e',
    sga.evolve 2
      (Examples.algo 1 1 3 detail.UNIFORM detail.TRUNCATED detail.SINGLE 0
         [0; 0; 0; 0; 0; 0; 1; 2; 3])
      Examples.three = Some (inr pop', e') /\
    get_x pop' = [[0.625]; [0.5]; [0.75]]%float /\
    get_f pop' = [[0.625]; [0.5]; [0.75]]%float.
Proof. eexists _, _. vm_compute. split_and!; reflexivity. Qed.

(** C2.  The UNIFORM mutation on two individuals of three coordinates, the
    last one an integer, with an engine that draws 0.25, 0.75, 0.25 and
    zeros from then on: whether [m_m] is 0 or 1, coordinate 0 of each
    individual is overwritten by a draw, one draw is taken per individual
    (the third is left on the tape), and coordinates 1 and 2 are left as
    they were. *)
Theorem uniform_mutation_first_coordinate_only :
  sga.perform_mutation (Examples.mutator 0 1)
    [[0.5; 0.5; 3]; [0.5; 0.5; 3]]%float Examples.mixed_bounds [1; 3; 5]
  = (inr [[0.25; 0.5; 3]; [0.75; 0.5; 3]]%float, [5]) /\
  sga.perform_mutation (Examples.mutator 1 1)
    [[0.5; 0.5; 3]; [0.5; 0.5; 3]]%float Examples.mixed_bounds [1; 3; 5]
  = (inr [[0.25; 0.5; 3]; [0.75; 0.5; 3]]%float, [5]).
Proof. split; vm_compute; reflexivity. Qed.

(** C3.  [sbx_crossover_impl] on parents of three coordinates, the last two
    integers, with the continuous part skipped (first draw 0.75 > m_cr) and
    the cut sites 0 and 1 drawn at the first integer coordinate: the children
    exchange coordinate 0, the continuous one, and keep their own integer
    coordinates; the loops over the sites index the vectors from 0, not
    from [D - Di]. *)
Theorem sbx_two_point_swaps_leading_coordinates :
  sga.sbx_crossover_impl
    (Examples.algo 1 1 2 detail.UNIFORM detail.TRUNCATED detail.SBX 2 [])
    [0.125; 5; 6]%float [0.875; 7; 8]%float
    ([0; 0; 0], [1; 10; 10])%float [3; 1; 0; 1; 3]
  = (inr ([0.875; 5; 6], [0.125; 7; 8])%float, []).
Proof. vm_compute. reflexivity. Qed.

(** C4.  The constructor, at its default arguments but for [cr = 1.0] (and
    for the seed): the test is [cr > 1. || cr < 0.], so the object is built
    with [m_cr = 1].  ([m = 0.02] is written as the binary64 value it
    denotes.) *)
Theorem constructor_accepts_cr_one {L : StdLib} :
  exists self,
    sga.sga 1 1 10 0x1.47ae147ae147bp-6 0.5 5 5
            "gaussian" "tournament" "exponential" 0 0 = inr self /\
    sga.m_cr self = 1%float.
Proof. eexists. split; reflexivity. Qed.

(** * Further properties of the code *)

(** ** The names of the operator kinds *)

Section names.
Import detail.

Lemma left_at_selection (name : string) (v : selection) :
  left_at m_selection_map name = inr v <->
  (name = "tournament" /\ v = TOURNAMENT) \/
  (name = "truncated" /\ v = TRUNCATED).
Proof.
  split.
  - unfold m_selection_map, init_selection_map. cbn [left_at].
    destruct (String.eqb_spec "tournament" name) as [<-|];
      [intros [= <-]; auto|].
    destruct (String.eqb_spec "truncated" name) as [<-|];
      [intros [= <-]; auto|].
    done.
  - intros [[-> ->]|[-> ->]]; reflexivity.
Qed.

Lemma left_at_crossover (name : string) (v : crossover) :
  left_at m_crossover_map name = inr v <->
  (name = "exponential" /\ v = EXPONENTIAL) \/
  (name = "binomial" /\ v = BINOMIAL) \/
  (name = "sbx" /\ v = SBX) \/
  (name = "single" /\ v = SINGLE).
Proof.
  split.
  - unfold m_crossover_map, init_crossover_map. cbn [left_at].
    destruct (String.eqb_spec "exponential" name) as [<-|];
      [intros [= <-]; auto|].
    destruct (String.eqb_spec "binomial" name) as [<-|];
      [intros [= <-]; auto|].
    destruct (String.eqb_spec "sbx" name) as [<-|];
      [intros [= <-]; auto|].
    destruct (String.eqb_spec "single" name) as [<-|];
      [intros [= <-]; auto 6|].
    done.
  - intros [[-> ->]|[[-> ->]|[[-> ->]|[-> ->]]]]; reflexivity.
Qed.

Lemma left_at_mutation (name : string) (v : mutation) :
  left_at m_mutation_map name = inr v <->
  (name = "gaussian" /\ v = GAUSSIAN) \/
  (name = "uniform" /\ v = UNIFORM) \/
  (name = "polynomial" /\ v = POLYNOMIAL).
Proof.
  split.
  - unfold m_mutation_map, init_mutation_map. cbn [left_at].
    destruct (String.eqb_spec "gaussian" name) as [<-|];
      [intros [= <-]; auto|].
    destruct (String.eqb_spec "uniform" name) as [<-|];
      [intros [= <-]; auto|].
    destruct (String.eqb_spec "polynomial" name) as [<-|];
      [intros [= <-]; auto|].
    done.
  - intros [[-> ->]|[[-> ->]|[-> ->]]]; reflexivity.
Qed.

End names.

(** X1.  The three tables pair names and kinds one to one: every kind has a
    name ([right.at] never throws), looking up that name gives the kind
    back, and a name that [left.at] finds is the name of the kind found. *)
Theorem operator_names_round_trip :
  (forall v, exists name,
      detail.right_at detail.m_selection_map v = inr name /\
      detail.left_at detail.m_selection_map name = inr v) /\
  (forall v, exists name,
      detail.right_at detail.m_crossover_map v = inr name /\
      detail.left_at detail.m_crossover_map name = inr v) /\
  (forall v, exists name,
      detail.right_at detail.m_mutation_map v = inr name /\
      detail.left_at detail.m_mutation_map name = inr v) /\
  (forall name v, detail.left_at detail.m_selection_map name = inr v ->
                  detail.right_at detail.m_selection_map v = inr name) /\
  (forall name v, detail.left_at detail.m_crossover_map name = inr v ->
                  detail.right_at detail.m_crossover_map v = inr name) /\
  (forall name v, detail.left_at detail.m_mutation_map name = inr v ->
                  detail.right_at detail.m_mutation_map v = inr name).
Proof.
  split_and!.
  - intros []; eexists; split; reflexivity.
  - intros []; eexists; split; reflexivity.
  - intros []; eexists; split; reflexivity.
  - intros name v H. apply left_at_selection in H.
    destruct H as [[-> ->]|[-> ->]]; reflexivity.
  - intros name v H. apply left_at_crossover in H.
    destruct H as [[-> ->]|[[-> ->]|[[-> ->]|[-> ->]]]]; reflexivity.
  - intros name v H. apply left_at_mutation in H.
    destruct H as [[-> ->]|[[-> ->]|[-> ->]]]; reflexivity.
Qed.

(** ** The constructor *)

Section comparisons.
Import FloatOrder.

Lemma leb_true_ltb_false (a b : float) :
  (a <=? b)%float = true -> (b <? a)%float = false.
Proof.
  intros H. apply leb_not_Gt in H. destruct H as (c & Hc & Hne).
  destruct (b <? a)%float eqn:E; [|done]. apply ltb_Lt in E.
  rewrite (SFcompare_antisym (Prim2SF a) (Prim2SF b)), Hc in E.
  by destruct c.
Qed.

Lemma ltb_true_leb_false (a b : float) :
  (a <? b)%float = true -> (b <=? a)%float = false.
Proof.
  intros H. apply ltb_Lt in H.
  destruct (b <=? a)%float eqn:E; [|done]. apply leb_not_Gt in E.
  destruct E as (c & Hc & Hne).
  rewrite (SFcompare_antisym (Prim2SF a) (Prim2SF b)), H in Hc.
  simpl in Hc. congruence.
Qed.

End comparisons.

Ltac split_ifs :=
  repeat match goal with
         | |- context [if ?c then _ else _] => destruct c eqn:?
         end.

(** X2.  The constructor either throws [invalid_argument] or builds an
    object, and never lets [std::out_of_range] escape from the table
    look-ups: a name that passes the checks is in its table.  The object
    built has the arguments as its fields, a selection parameter that is
    not zero, the engine seeded with [seed], verbosity 0, and the operator
    kinds whose names are the three strings given. *)
Theorem constructor_outcome {L : StdLib} (gen : N)
    (cr eta_c m param_m : double) (elitism param_s : nat)
    (mutation selection crossover : string) (int_dim : nat) (seed : N) :
  match sga.sga gen cr eta_c m param_m elitism param_s mutation selection
                crossover int_dim seed with
  | inl x => x = invalid_argument
  | inr self =>
      sga.m_gen self = gen /\ sga.m_cr self = cr /\
      sga.m_eta_c self = eta_c /\ sga.m_m self = m /\
      sga.m_param_m self = param_m /\ sga.m_elitism self = elitism /\
      sga.m_param_s self = param_s /\ param_s <> 0 /\
      sga.m_int_dim self = int_dim /\
      sga.m_e self = engine_of_seed seed /\
      sga_accessors.get_seed self = seed /\
      sga_accessors.get_verbosity self = 0%N /\
      sga_accessors.mutation_name self = inr mutation /\
      sga_accessors.selection_name self = inr selection /\
      sga_accessors.crossover_name self = inr crossover
  end.
Proof.
  unfold sga.sga.
  destruct ((1 <? cr)%float || (cr <? 0)%float); [done|].
  destruct ((eta_c <? 1)%float || (100 <=? eta_c)%float); [done|].
  destruct ((m <? 0)%float || (1 <? m)%float); [done|].
  destruct (Nat.eqb_spec param_s 0) as [|Hps]; [done|].
  destruct (String.eqb_spec mutation "gaussian") as [->|];
    [|destruct (String.eqb_spec mutation "uniform") as [->|];
      [|destruct (String.eqb_spec mutation "polynomial") as [->|];
        [|done]]];
    (destruct (String.eqb_spec selection "truncated") as [->|];
     [|destruct (String.eqb_spec selection "tournament") as [->|];
       [|done]]);
    (destruct (String.eqb_spec crossover "exponential") as [->|];
     [|destruct (String.eqb_spec crossover "binomial") as [->|];
       [|destruct (String.eqb_spec crossover "sbx") as [->|];
         [|destruct (String.eqb_spec crossover "single") as [->|];
           [|done]]]]);
    cbn [negb andb];
    match goal with
    | |- context [String.eqb ?a ?b && _] =>
        change (String.eqb a b) with false
          || change (String.eqb a b) with true
    | _ => idtac
    end; cbn [negb andb];
    split_ifs; try done;
    cbn; split_and!; done.
Qed.

(** X3.  The constructor accepts every argument list with [cr] and [m] in
    the closed range [0, 1], [eta_c] in [1, 100), [param_s] not zero, one of
    the names of each table, and [param_m] in [1, 100] for the polynomial
    mutation and in [0, 1] for the others; [elitism], [gen], [int_dim] and
    the seed are free. *)
Theorem constructor_accepts_closed_ranges {L : StdLib} (gen : N)
    (cr eta_c m param_m : double) (elitism param_s : nat)
    (mutation selection crossover : string) (int_dim : nat) (seed : N) :
  (0 <=? cr)%float = true -> (cr <=? 1)%float = true ->
  (1 <=? eta_c)%float = true -> (eta_c <? 100)%float = true ->
  (0 <=? m)%float = true -> (m <=? 1)%float = true ->
  param_s <> 0 ->
  (mutation = "polynomial" /\
   (1 <=? param_m)%float = true /\ (param_m <=? 100)%float = true) \/
  ((mutation = "gaussian" \/ mutation = "uniform") /\
   (0 <=? param_m)%float = true /\ (param_m <=? 1)%float = true) ->
  selection = "tournament" \/ selection = "truncated" ->
  crossover = "exponential" \/ crossover = "binomial" \/
  crossover = "sbx" \/ crossover = "single" ->
  exists self,
    sga.sga gen cr eta_c m param_m elitism param_s mutation selection
            crossover int_dim seed = inr self.
Proof.
  intros Hcr0 Hcr1 Heta1 Heta100 Hm0 Hm1 Hps Hmut Hsel Hcro.
  unfold sga.sga.
  rewrite (leb_true_ltb_false _ _ Hcr1), (leb_true_ltb_false _ _ Hcr0).
  rewrite (leb_true_ltb_false _ _ Heta1), (ltb_true_leb_false _ _ Heta100).
  rewrite (leb_true_ltb_false _ _ Hm0), (leb_true_ltb_false _ _ Hm1).
  destruct (Nat.eqb_spec param_s 0) as [|_]; [done|]. cbn [orb].
  destruct Hsel as [->| ->];
    destruct Hcro as [->|[->|[->| ->]]];
    destruct Hmut as [(-> & Hp1 & Hp2)|([->| ->] & Hp1 & Hp2)];
    rewrite (leb_true_ltb_false _ _ Hp1), (leb_true_ltb_false _ _ Hp2);
    eexists; reflexivity.
Qed.

Lemma constructor_accepts_closed_ranges_witness :
  exists self,
    sga.sga (L := Tape.lib) 10 1 10 1 0.5 0 1
            "gaussian" "truncated" "sbx" 3 42 = inr self.
Proof.
  apply (constructor_accepts_closed_ranges (L := Tape.lib) 10 1 10 1 0.5 0 1
           "gaussian" "truncated" "sbx" 3 42);
    try reflexivity; try lia.
  - right. split_and!; [by left|reflexivity..].
  - by right.
  - right. right. by left.
Defined.

(** X4.  [set_seed] after construction gives the object that the
    constructor builds with that seed: the same fields, the engine and the
    stored seed of a fresh object.  So a run of [evolve] on a re-seeded
    object is the run on a fresh object with that seed; [get_seed] returns
    the seed set. *)
Theorem set_seed_as_constructed {L : StdLib} (gen : N)
    (cr eta_c m param_m : double) (elitism param_s : nat)
    (mutation selection crossover : string) (int_dim : nat)
    (seed1 seed2 : N) (self1 self2 : sga.t) :
  sga.sga gen cr eta_c m param_m elitism param_s mutation selection
          crossover int_dim seed1 = inr self1 ->
  sga.sga gen cr eta_c m param_m elitism param_s mutation selection
          crossover int_dim seed2 = inr self2 ->
  sga_accessors.set_seed self1 seed2 = self2 /\
  sga_accessors.get_seed (sga_accessors.set_seed self1 seed2) = seed2 /\
  forall fuel pop,
    sga.evolve fuel (sga_accessors.set_seed self1 seed2) pop
    = sga.evolve fuel self2 pop.
Proof.
  unfold sga.sga. intros H1 H2.
  assert (sga_accessors.set_seed self1 seed2 = self2) as Heq.
  { repeat match type of H1 with
           | context [if ?c then _ else _] => destruct c; [done|]
           end.
    repeat match type of H1 with
           | context [match ?x with inl _ => _ | inr _ => _ end] =>
               destruct x; [done|]
           end.
    by simplify_eq. }
  split_and!; [done|reflexivity|]. intros fuel pop. by rewrite Heq.
Qed.

Lemma set_seed_as_constructed_witness :
  exists self1 self2 : sga.t (L := Tape.lib),
    sga.sga 3 0.5 10 0.5 0.5 2 4 "uniform" "tournament" "binomial" 1 7
    = inr self1 /\
    sga.sga 3 0.5 10 0.5 0.5 2 4 "uniform" "tournament" "binomial" 1 9
    = inr self2 /\
    sga_accessors.set_seed self1 9 = self2 /\
    sga_accessors.get_seed (sga_accessors.set_seed self1 9) = 9%N /\
    forall fuel pop,
      sga.evolve fuel (sga_accessors.set_seed self1 9) pop
      = sga.evolve fuel self2 pop.
Proof.
  eexists _, _. split; [reflexivity|]. split; [reflexivity|].
  apply (set_seed_as_constructed (L := Tape.lib) 3 0.5 10 0.5 0.5 2 4
           "uniform" "tournament" "binomial" 1 7 9); reflexivity.
Defined.

(** ** The generation loop of [evolve] *)

Section evolve_loop.
Context {L : StdLib}.
Import sga detail.

Lemma generation_loop_generations (fuel : nat) (self : t) (i : N)
    (pop : population) e :
  (m_gen self < 2 ^ 32 - 1)%N -> (1 <= i <= m_gen self + 1)%N ->
  N.to_nat (m_gen self + 1 - i) < fuel ->
  generation_loop fuel self i pop e
  = Some (generations (N.to_nat (m_gen self + 1 - i)) self pop e).
Proof.
  intros Hgen. revert i pop e.
  induction fuel as [|fuel IH]; intros i pop e Hi Hfuel; [lia|].
  cbn [generation_loop].
  destruct (N.leb_spec i (m_gen self)) as [Hle|Hgt].
  - replace (N.to_nat (m_gen self + 1 - i))
      with (S (N.to_nat (m_gen self + 1 - (i + 1)))) by lia.
    cbn [generations]. unfold mbind at 1.
    destruct (generation_total self pop e) as (pop' & e' & ->).
    rewrite N.mod_small by lia. apply IH; lia.
  - replace (N.to_nat (m_gen self + 1 - i)) with 0 by lia. done.
Qed.

(** A generation keeps the size of the population, the number of cached
    fitness vectors, and the problem unless it is stochastic. *)
Lemma generation_shape (self : t) (pop pop' : population) e e' :
  length (get_f pop) = size pop -> m_elitism self <= size pop ->
  generation self pop e = (inr pop', e') ->
  size pop' = size pop /\ length (get_f pop') = size pop /\
  (is_stochastic (get_problem pop) = false ->
   get_problem pop' = get_problem pop).
Proof.
  intros Hf Hel Hgen.
  destruct (generation_reinserts self pop e)
    as (pop0 & e0 & XNEW & FNEW & e1 & H0 & Hgen').
  rewrite Hgen in Hgen'. injection Hgen' as -> ->.
  assert (size pop0 = size pop /\ length (get_f pop0) = size pop /\
          (is_stochastic (get_problem pop) = false ->
           get_problem pop0 = get_problem pop)) as (Hs0 & Hf0 & Hp0).
  { revert H0. unfold reevaluation.
    destruct (is_stochastic (get_problem pop));
      [|by intros [= <- <-]].
    unfold mbind, draw. destruct (uniform_unsigned e) as [seed e2].
    intros [= <- <-]. split_and!; [| |done].
    - apply (for_pure_inv (fun p => size p = size pop)); [done|].
      intros j p _ Hp. unfold size in *. simpl. by rewrite length_insert.
    - apply (for_pure_inv (fun p => length (get_f p) = size pop)); [done|].
      intros j p _ Hp. simpl. by rewrite length_insert. }
  destruct (reinsertion_size self pop0 XNEW FNEW) as (H1 & H2 & H3);
    [lia|lia|].
  split_and!; [lia|lia|]. intros Hdet. rewrite H3. by apply Hp0.
Qed.

End evolve_loop.

(** X5.  When the 32-bit loop counter cannot wrap ([m_gen < 2^32 - 1]), a
    run of [evolve] that passes the entry checks is exactly [m_gen]
    generations in a row on the engine of the object, none for
    [m_gen = 0]. *)
Theorem evolve_runs_m_gen_generations {L : StdLib} (fuel : nat)
    (self : sga.t) (pop : population) :
  ~ incompatible self pop ->
  (sga.m_gen self < 2 ^ 32 - 1)%N ->
  N.to_nat (sga.m_gen self) < fuel ->
  sga.evolve fuel self pop
  = Some (generations (N.to_nat (sga.m_gen self)) self pop (sga.m_e self)).
Proof.
  intros Hc Hgen Hfuel. rewrite (evolve_compatible fuel self pop Hc).
  destruct (N.eqb_spec (sga.m_gen self) 0) as [H0|H0].
  - by rewrite H0.
  - rewrite generation_loop_generations by lia.
    do 3 f_equal. lia.
Qed.

Lemma evolve_runs_m_gen_generations_witness :
  sga.evolve 4
    (Examples.algo 3 1 2 detail.UNIFORM detail.TRUNCATED detail.SINGLE 0
       [1; 2; 3])
    Examples.three
  = Some (generations 3
            (Examples.algo 3 1 2 detail.UNIFORM detail.TRUNCATED
               detail.SINGLE 0 [1; 2; 3])
            Examples.three [1; 2; 3]).
Proof.
  apply (evolve_runs_m_gen_generations (L := Tape.lib) 4
           (Examples.algo 3 1 2 detail.UNIFORM detail.TRUNCATED
              detail.SINGLE 0 [1; 2; 3])
           Examples.three).
  - intros [H|[H|[H|[H|[H|[H _]]]]]]; vm_compute in H; try lia; try done;
      by apply H.
  - reflexivity.
  - vm_compute. lia.
Defined.

(** X6.  At [m_gen = 2^32 - 1] the test [i <= m_gen] of the loop never
    fails, the counter wrapping to 0 after the last value: a run that
    passes the entry checks does not return, whatever the fuel. *)
Theorem evolve_never_returns_at_max_gen {L : StdLib} (fuel : nat)
    (self : sga.t) (pop : population) :
  ~ incompatible self pop ->
  sga.m_gen self = (2 ^ 32 - 1)%N ->
  sga.evolve fuel self pop = None.
Proof.
  intros Hc Hgen. rewrite (evolve_compatible fuel self pop Hc), Hgen.
  by apply generation_loop_wraps.
Qed.

Lemma evolve_never_returns_at_max_gen_witness :
  sga.evolve 1000
    (Examples.algo 4294967295 1 2 detail.UNIFORM detail.TRUNCATED
       detail.SINGLE 0 [])
    Examples.three = None.
Proof.
  apply (evolve_never_returns_at_max_gen (L := Tape.lib) 1000
           (Examples.algo 4294967295 1 2 detail.UNIFORM detail.TRUNCATED
              detail.SINGLE 0 [])
           Examples.three).
  - intros [H|[H|[H|[H|[H|[H _]]]]]]; vm_compute in H; try lia; try done;
      by apply H.
  - reflexivity.
Defined.

Section evolve_invariants.
Context {L : StdLib}.
Import sga detail.

(** What a run keeps of the population it started from. *)
Let same_shape (pop pop' : population) : Prop :=
  size pop' = size pop /\ length (get_f pop') = size pop /\
  (is_stochastic (get_problem pop) = false ->
   get_problem pop' = get_problem pop).

Lemma generation_loop_shape (fuel : nat) (self : t) (i : N)
    (pop pop' : population) e e' :
  length (get_f pop) = size pop -> m_elitism self <= size pop ->
  generation_loop fuel self i pop e = Some (inr pop', e') ->
  same_shape pop pop'.
Proof.
  revert i pop e. induction fuel as [|fuel IH]; intros i pop e Hf Hel;
    [done|]. cbn [generation_loop].
  destruct (i <=? m_gen self)%N; [|by intros [= <- <-]].
  destruct (generation self pop e) as [[x|pop1] e1] eqn:Hgen; [done|].
  destruct (generation_shape self pop pop1 e e1 Hf Hel Hgen)
    as (Hs1 & Hf1 & Hp1).
  intros Hloop. apply IH in Hloop; [|lia|lia].
  destruct Hloop as (Hs & Hf' & Hp). unfold same_shape.
  split_and!; [lia|lia|]. intros Hdet.
  rewrite Hp; [by apply Hp1|]. by rewrite Hp1.
Qed.

End evolve_invariants.

(** X7.  Whatever [evolve] returns has the size of the population it was
    given and as many cached fitness vectors, and the same problem when
    that is not stochastic. *)
Theorem evolve_keeps_shape {L : StdLib} (fuel : nat) (self : sga.t)
    (pop pop' : population) (e' : random_engine_type) :
  length (get_f pop) = size pop ->
  sga.evolve fuel self pop = Some (inr pop', e') ->
  size pop' = size pop /\ length (get_f pop') = size pop /\
  (is_stochastic (get_problem pop) = false ->
   get_problem pop' = get_problem pop).
Proof.
  intros Hf. destruct (incompatible_dec self pop) as [Hi|Hc].
  - by rewrite (evolve_incompatible fuel self pop Hi).
  - rewrite (evolve_compatible fuel self pop Hc).
    destruct (sga.m_gen self =? 0)%N; [by intros [= <- <-]|].
    apply generation_loop_shape; [done|].
    unfold incompatible in Hc. lia.
Qed.

Lemma evolve_keeps_shape_witness :
  size (Examples.population_of Examples.line [[0.625]; [0.5]; [0.75]]%float)
  = size Examples.three /\
  length (get_f (Examples.population_of Examples.line
                   [[0.625]; [0.5]; [0.75]]%float))
  = size Examples.three /\
  (is_stochastic (get_problem Examples.three) = false ->
   get_problem (Examples.population_of Examples.line
                  [[0.625]; [0.5]; [0.75]]%float)
   = get_problem Examples.three).
Proof.
  apply (evolve_keeps_shape (L := Tape.lib) 2
           (Examples.algo 1 1 3 detail.UNIFORM detail.TRUNCATED
              detail.SINGLE 0 [0; 0; 0; 0; 0; 0; 1; 2; 3])
           Examples.three
           (Examples.population_of Examples.line
              [[0.625]; [0.5]; [0.75]]%float) []).
  - reflexivity.
  - vm_compute. reflexivity.
Defined.

Section best_kept.
Context {L : StdLib} {LS : StdLibSpec L}.
Import sga detail.

(** The first index of a ranking is not worse than any index. *)
Lemma sorted_first_is_best (F : list vector_double) (n k : nat) :
  k < n ->
  by_fitness F k (std_sort (by_fitness F) (seq 0 n) !!! 0) = false /\
  std_sort (by_fitness F) (seq 0 n) !!! 0 < n.
Proof.
  intros Hk. set (bp := std_sort (by_fitness F) (seq 0 n)).
  assert (bp ≡ₚ seq 0 n) as Hperm by apply sorted_indices_perm.
  assert (length bp = n) as Hlen by by rewrite Hperm, length_seq.
  assert (bp !! 0 = Some (bp !!! 0)) as H0.
  { apply list_lookup_lookup_total_lt. lia. }
  split; [|apply Forall_lookup_total_lt; [lia|apply sorted_indices_lt]].
  assert (k ∈ bp) as Hin.
  { rewrite Hperm. apply elem_of_seq. lia. }
  apply list_elem_of_lookup in Hin. destruct Hin as [j Hj].
  destruct j as [|j].
  - rewrite H0 in Hj. injection Hj as ->.
    apply (swo_irrefl _ (key_cmp_swo (fun a => (F !!! a) !!! 0))).
  - eapply (std_sort_ascending (by_fitness F) (seq 0 n));
      [apply key_cmp_swo| |exact H0|exact Hj]. lia.
Qed.

(** After a generation on a problem that is not stochastic, slot 0 holds a
    fitness that none of the fitness values before is less than. *)
Lemma generation_best_first (self : t) (pop pop' : population) e e' (k : nat) :
  is_stochastic (get_problem pop) = false ->
  length (get_f pop) = size pop -> 1 <= m_elitism self <= size pop ->
  generation self pop e = (inr pop', e') -> k < size pop ->
  less_than_f ((get_f pop !!! k) !!! 0) ((get_f pop' !!! 0) !!! 0) = false.
Proof.
  intros Hdet Hf Hel Hgen Hk.
  destruct (generation_reinserts self pop e)
    as (pop0 & e0 & XNEW & FNEW & e1 & H0 & Hgen').
  rewrite Hgen in Hgen'. injection Hgen' as -> ->.
  unfold reevaluation in H0. rewrite Hdet in H0. injection H0 as <- <-.
  destruct (reinsertion_elite self pop XNEW FNEW 0) as [_ Hf0];
    [lia|done|lia|].
  rewrite (list_lookup_total_correct _ _ _ Hf0).
  by apply (sorted_first_is_best (get_f pop)).
Qed.

Lemma generation_loop_best (fuel : nat) (self : t) (i : N)
    (start pop pop' : population) e e' :
  is_stochastic (get_problem pop) = false ->
  length (get_f pop) = size pop -> 1 <= m_elitism self <= size pop ->
  (exists s, s < size pop /\ forall k, k < size start ->
     less_than_f ((get_f start !!! k) !!! 0) ((get_f pop !!! s) !!! 0)
     = false) ->
  generation_loop fuel self i pop e = Some (inr pop', e') ->
  exists s, s < size pop' /\ forall k, k < size start ->
    less_than_f ((get_f start !!! k) !!! 0) ((get_f pop' !!! s) !!! 0)
    = false.
Proof.
  revert i pop e. induction fuel as [|fuel IH];
    intros i pop e Hdet Hf Hel Hbest; [done|]. cbn [generation_loop].
  destruct (i <=? m_gen self)%N; [|by intros [= <- <-]].
  destruct (generation self pop e) as [[x|pop1] e1] eqn:Hgen; [done|].
  destruct (generation_shape self pop pop1 e e1) as (Hs1 & Hf1 & Hp1);
    [done|lia|done|].
  apply IH; [by rewrite Hp1|lia|lia|].
  destruct Hbest as (s & Hs & Hbest). exists 0. split; [lia|].
  intros k Hk.
  apply (swo_incomp _ less_than_f_swo _ ((get_f pop !!! s) !!! 0));
    [by apply Hbest|].
  by apply (generation_best_first self pop pop1 e e1).
Qed.

End best_kept.

(** X8.  With at least one elite slot on a problem that is not stochastic,
    the population that [evolve] returns holds an individual whose cached
    fitness none of the cached fitness values of the input is less than
    (under [less_than_f]): the best fitness never gets worse. *)
Theorem evolve_never_loses_the_best {L : StdLib} {LS : StdLibSpec L}
    (fuel : nat) (self : sga.t) (pop pop' : population)
    (e' : random_engine_type) :
  is_stochastic (get_problem pop) = false ->
  length (get_f pop) = size pop ->
  1 <= sga.m_elitism self ->
  sga.evolve fuel self pop = Some (inr pop', e') ->
  exists s, s < size pop' /\
    forall k, k < size pop ->
      less_than_f ((get_f pop !!! k) !!! 0) ((get_f pop' !!! s) !!! 0)
      = false.
Proof.
  intros Hdet Hf Hel. destruct (incompatible_dec self pop) as [Hi|Hc].
  { by rewrite (evolve_incompatible fuel self pop Hi). }
  rewrite (evolve_compatible fuel self pop Hc).
  assert (2 <= size pop /\ sga.m_elitism self <= size pop) as [Hnp Hle].
  { unfold incompatible in Hc. lia. }
  assert (exists s, s < size pop /\ forall k, k < size pop ->
            less_than_f ((get_f pop !!! k) !!! 0) ((get_f pop !!! s) !!! 0)
            = false) as Hstart.
  { exists (std_sort (by_fitness (get_f pop)) (seq 0 (size pop)) !!! 0).
    split; [apply (sorted_first_is_best (get_f pop) (size pop) 0); lia|].
    intros k Hk. by apply (sorted_first_is_best (get_f pop)). }
  destruct (sga.m_gen self =? 0)%N; [by intros [= <- <-]|].
  by apply generation_loop_best.
Qed.

Lemma evolve_never_loses_the_best_witness :
  exists s,
    s < size (Examples.population_of Examples.line
                [[0.625]; [0.5]; [0.75]]%float) /\
    forall k, k < size Examples.three ->
      less_than_f ((get_f Examples.three !!! k) !!! 0)
        ((get_f (Examples.population_of Examples.line
                   [[0.625]; [0.5]; [0.75]]%float) !!! s) !!! 0) = false.
Proof.
  apply (evolve_never_loses_the_best (L := Tape.lib) (LS := tape_lib_spec)
           2
           (Examples.algo 1 1 3 detail.UNIFORM detail.TRUNCATED
              detail.SINGLE 0 [0; 0; 0; 0; 0; 0; 1; 2; 3])
           Examples.three
           (Examples.population_of Examples.line
              [[0.625]; [0.5]; [0.75]]%float) []).
  - reflexivity.
  - reflexivity.
  - simpl. lia.
  - vm_compute. reflexivity.
Defined.

(** ** Crossover with a partner *)

Lemma ok_for_each_seq_ind {L : StdLib} {S} (I : nat -> S -> Prop)
    (n lo : nat) (body : nat -> S -> M S) (s : S) :
  I lo s ->
  (forall i s, lo <= i < lo + n -> I i s ->
               ok (body i s) (I (Datatypes.S i))) ->
  ok (for_each (seq lo n) body s) (I (lo + n)).
Proof.
  revert lo s. induction n as [|n IH]; intros lo s H0 Hbody; simpl.
  - rewrite Nat.add_0_r. by apply ok_mret.
  - eapply ok_mbind; [apply Hbody; [lia|done]|].
    intros s' Hs'. replace (lo + Datatypes.S n) with (Datatypes.S lo + n) by lia.
    apply IH; [done|]. intros i s'' Hi. apply Hbody. lia.
Qed.

(** The invariant rule of a counted loop, the invariant indexed by the
    counter. *)
Lemma ok_for_range_ind {L : StdLib} {S} (I : nat -> S -> Prop)
    (lo hi : nat) (body : nat -> S -> M S) (s : S) :
  lo <= hi -> I lo s ->
  (forall i s, lo <= i < hi -> I i s -> ok (body i s) (I (Datatypes.S i))) ->
  ok (for_range lo hi body s) (I hi).
Proof.
  intros Hle H0 Hbody. unfold for_range, range.
  replace hi with (lo + (hi - lo)) at 2 by lia.
  apply ok_for_each_seq_ind; [done|]. intros i s' Hi. apply Hbody. lia.
Qed.

(** Two loops in step: the second threads a projection of the state of
    the first. *)
Lemma for_each_seq_proj {L : StdLib} {S T} (I : nat -> S -> Prop)
    (proj : S -> T) (n lo : nat) (bodyA : nat -> S -> M S)
    (bodyB : nat -> T -> M T) (s : S) :
  I lo s ->
  (forall i s e, lo <= i < lo + n -> I i s ->
     match bodyA i s e with
     | (inr s', e') =>
         I (Datatypes.S i) s' /\ bodyB i (proj s) e = (inr (proj s'), e')
     | (inl x, e') => bodyB i (proj s) e = (inl x, e')
     end) ->
  forall e,
    for_each (seq lo n) bodyB (proj s) e
    = match for_each (seq lo n) bodyA s e with
      | (inr s', e') => (inr (proj s'), e')
      | (inl x, e') => (inl x, e')
      end.
Proof.
  revert lo s. induction n as [|n IH]; intros lo s H0 Hbody e; simpl.
  - done.
  - unfold mbind. pose proof (Hbody lo s e ltac:(lia) H0) as Hb.
    destruct (bodyA lo s e) as [[x|s'] e'].
    + by rewrite Hb.
    + destruct Hb as [HI Hb]. rewrite Hb. apply IH; [done|].
      intros i s'' e'' Hi. apply Hbody. lia.
Qed.

Lemma perform_crossover_mate {L : StdLib} (self : sga.t)
    (X : list vector_double) (bounds : vector_double * vector_double) :
  sga.m_crossover self <> detail.SBX ->
  sga.perform_crossover self X bounds =
  (let* '(X', _) :=
     for_range 0 (length X)
       (fun i '(X', all_idx) =>
          let all_idx := swap all_idx 0 i in
          let* partner_idx := draw (uniform_int 1 (length all_idx - 1)) in
          let* child :=
            mate self (length (X !!! 0)) (X !!! (all_idx !!! partner_idx))
                 (X' !!! i) in
          mret (<[i := child]> X', all_idx))
       (X, seq 0 (length X)) in
   mret X')%M.
Proof.
  intros Hc. unfold sga.perform_crossover, mate.
  destruct (sga.m_crossover self); done.
Qed.

Section partner.
Context {L : StdLib} {LS : StdLibSpec L}.

(** The index vector [all_idx] after the swaps of the turns before [k]:
    the last index swapped in front, the ones before it shifted by one. *)
Let all_idx_at (k j : nat) : nat :=
  if k =? 0 then j
  else if j =? 0 then k - 1
  else if j <? k then j - 1
  else j.

Lemma all_idx_at_swap (n i : nat) (all_idx : list nat) :
  i < n -> length all_idx = n ->
  (forall j, j < n -> all_idx !!! j = all_idx_at i j) ->
  forall j, j < n -> swap all_idx 0 i !!! j = all_idx_at (S i) j.
Proof.
  intros Hi Hlen Hidx j Hj. unfold swap.
  destruct (decide (j = 0)) as [->|Hj0].
  - rewrite list_lookup_total_insert_eq by (rewrite length_insert; lia).
    rewrite Hidx by done. unfold all_idx_at.
    destruct (Nat.eqb_spec i 0), (Nat.ltb_spec i i); simpl; lia.
  - rewrite list_lookup_total_insert_ne by done.
    destruct (decide (j = i)) as [->|Hji].
    + rewrite list_lookup_total_insert_eq by lia.
      rewrite Hidx by lia. unfold all_idx_at.
      destruct (Nat.eqb_spec i 0), (Nat.ltb_spec i (S i)); simpl; lia.
    + rewrite list_lookup_total_insert_ne by done.
      rewrite Hidx by done. unfold all_idx_at.
      destruct (Nat.eqb_spec i 0), (Nat.eqb_spec j 0), (Nat.ltb_spec j i),
        (Nat.ltb_spec j (S i)); simpl; lia.
Qed.

Lemma all_idx_at_partner (n i pi : nat) :
  i < n -> 1 <= pi <= n - 1 ->
  all_idx_at (S i) pi < n /\ all_idx_at (S i) pi <> i.
Proof.
  intros Hi Hpi. unfold all_idx_at.
  destruct (Nat.eqb_spec pi 0), (Nat.ltb_spec pi (S i)); simpl; lia.
Qed.

(** What holds of each child and its partner holds of every slot of the
    result: the partner of slot [i] is another slot of [X]. *)
Lemma crossover_each_child
    (Q : vector_double -> vector_double -> vector_double -> Prop)
    (self : sga.t) (X : list vector_double)
    (bounds : vector_double * vector_double) :
  sga.m_crossover self <> detail.SBX -> 2 <= length X ->
  (forall i p, i < length X -> p < length X -> p <> i ->
     ok (mate self (length (X !!! 0)) (X !!! p) (X !!! i))
        (Q (X !!! i) (X !!! p))) ->
  ok (sga.perform_crossover self X bounds)
     (fun R => length R = length X /\
               forall i, i < length X ->
                 exists p, p < length X /\ p <> i /\
                           Q (X !!! i) (X !!! p) (R !!! i)).
Proof.
  intros Hc Hn HQ. rewrite perform_crossover_mate by done.
  set (n := length X) in *.
  set (I := fun (k : nat) (s : list vector_double * list nat) =>
              length s.1 = n /\ length s.2 = n /\
              (forall j, j < n -> s.2 !!! j = all_idx_at k j) /\
              (forall i, k <= i -> s.1 !! i = X !! i) /\
              (forall i, i < k ->
                 exists p, p < n /\ p <> i /\
                           Q (X !!! i) (X !!! p) (s.1 !!! i))).
  eapply ok_mbind with (P := I n).
  - apply ok_for_range_ind; [lia| |].
    + unfold I; simpl. rewrite length_seq. split_and!; try done.
      * intros j Hj. by rewrite lookup_total_seq_lt.
      * intros i Hi. lia.
    + intros i [X' all_idx] Hi (Hl1 & Hl2 & Hidx & Hrest & Hdone).
      simpl in *.
      eapply ok_mbind with (P := fun pi => 1 <= pi <= n - 1).
      { apply ok_draw. intros e. rewrite length_swap, Hl2.
        apply uniform_int_range. lia. }
      intros pi Hpi.
      rewrite (all_idx_at_swap n i all_idx) by (done || lia).
      destruct (all_idx_at_partner n i pi) as [Hp Hpne]; [lia|done|].
      assert (X' !!! i = X !!! i) as ->.
      { rewrite !list_lookup_total_alt. by rewrite Hrest. }
      eapply ok_mbind; [apply (HQ i _); [lia|done|done]|].
      intros child Hchild. apply ok_mret. unfold I; simpl.
      rewrite length_insert, length_swap. split_and!; try done.
      * intros j Hj. apply (all_idx_at_swap n i all_idx); done || lia.
      * intros i' Hi'. rewrite list_lookup_insert_ne by lia.
        apply Hrest. lia.
      * intros i' Hi'. destruct (decide (i' = i)) as [->|Hne].
        -- rewrite list_lookup_total_insert_eq by lia. eauto.
        -- rewrite list_lookup_total_insert_ne by done. apply Hdone. lia.
  - intros [R all_idx] (Hl1 & _ & _ & _ & Hdone). apply ok_mret. auto.
Qed.

Lemma all_idx_at_partner_of (i pi : nat) :
  1 <= pi -> all_idx_at (S i) pi = partner_of i pi.
Proof.
  intros Hpi. unfold all_idx_at, partner_of.
  destruct (Nat.eqb_spec pi 0), (Nat.ltb_spec pi (S i)),
    (Nat.leb_spec pi i); simpl; lia.
Qed.

(** The index vector only serves to read [partner_of]. *)
Lemma perform_crossover_by_partner (self : sga.t)
    (X : list vector_double) (bounds : vector_double * vector_double)
    (e : random_engine_type) :
  sga.m_crossover self <> detail.SBX -> 2 <= length X ->
  sga.perform_crossover self X bounds e = crossover_by_partner self X e.
Proof.
  intros Hc Hn. rewrite perform_crossover_mate by done.
  unfold crossover_by_partner, for_range, range, mbind at 1.
  rewrite Nat.sub_0_r. set (n := length X) in *.
  set (I := fun (k : nat) (s : list vector_double * list nat) =>
              length s.2 = n /\
              forall j, j < n -> s.2 !!! j = all_idx_at k j).
  pose proof (for_each_seq_proj I fst n 0
    (fun i '(X', all_idx) =>
       let all_idx := swap all_idx 0 i in
       let* partner_idx := draw (uniform_int 1 (length all_idx - 1)) in
       let* child :=
         mate self (length (X !!! 0)) (X !!! (all_idx !!! partner_idx))
              (X' !!! i) in
       mret (<[i := child]> X', all_idx))%M
    (fun i X' =>
       let* partner_idx := draw (uniform_int 1 (n - 1)) in
       let* child :=
         mate self (length (X !!! 0)) (X !!! partner_of i partner_idx)
              (X' !!! i) in
       mret (<[i := child]> X'))%M
    (X, seq 0 n)) as H.
  simpl in H. rewrite H.
  - by destruct (for_each _ _ _ e) as [[x|[X' all_idx]] e'].
  - unfold I; simpl. split; [by rewrite length_seq|]. intros j Hj.
    by rewrite lookup_total_seq_lt.
  - intros i [X' all_idx] e0 Hi [Hl Hidx]. simpl in Hl, Hidx.
    unfold I; cbn [fst snd]. unfold mbind, draw, mret.
    rewrite length_swap, Hl.
    pose proof (uniform_int_range 1 (n - 1) e0 ltac:(lia)) as Hpi.
    destruct (uniform_int 1 (n - 1) e0) as [pi e1]. simpl in Hpi.
    rewrite (all_idx_at_swap n i all_idx) by (done || lia).
    rewrite all_idx_at_partner_of by lia.
    destruct (mate _ _ _ _ e1) as [[x|child] e2]; [done|].
    split; [|done]. split; cbn [fst snd]; [by rewrite length_swap|].
    intros j Hj. apply (all_idx_at_swap n i all_idx); done || lia.
Qed.

End partner.

Section children.
Context {L : StdLib} {LS : StdLibSpec L}.

Lemma gene_mix_refl (own partner : vector_double) :
  gene_mix own partner own.
Proof. split; auto. Qed.

Lemma gene_mix_insert (own partner child : vector_double) (n : nat) :
  gene_mix own partner child ->
  gene_mix own partner (<[n := partner !!! n]> child).
Proof.
  intros [Hlen Hmix]. split; [by rewrite length_insert|]. intros j.
  destruct (decide (n = j)) as [->|Hne].
  - destruct (decide (j < length child)) as [Hj|Hj].
    + right. by apply list_lookup_total_insert_eq.
    + rewrite list_insert_id' by lia. apply Hmix.
  - rewrite list_lookup_total_insert_ne by done. apply Hmix.
Qed.

Lemma gene_mix_trans (own partner mid child : vector_double) :
  gene_mix own partner mid -> gene_mix mid partner child ->
  gene_mix own partner child.
Proof.
  intros [Hl1 H1] [Hl2 H2]. split; [lia|]. intros j.
  destruct (H2 j) as [->| ->]; auto.
Qed.

Lemma exponential_loop_mix (fuel : nat) (cr : double) (dim : nat)
    (parent2 child : vector_double) (n l : nat) :
  ok (sga.exponential_loop fuel cr dim parent2 child n l)
     (gene_mix child parent2).
Proof.
  revert child n l. induction fuel as [|fuel IH]; intros child n l;
    cbn [sga.exponential_loop];
    (eapply ok_mbind; [by apply (ok_draw _ (fun _ => True))|]);
    intros r _; destruct (_ && _);
    try (apply ok_mret; apply gene_mix_insert, gene_mix_refl).
  eapply ok_weaken; [apply IH|]. intros c Hc.
  eapply gene_mix_trans; [|exact Hc].
  apply gene_mix_insert, gene_mix_refl.
Qed.

(** The first turn of the exponential crossover copies the partner's gene
    at the start coordinate, and no later turn takes it back. *)
Lemma exponential_loop_first (fuel : nat) (cr : double) (dim : nat)
    (parent2 child : vector_double) (n l : nat) :
  n < length child ->
  ok (sga.exponential_loop fuel cr dim parent2 child n l)
     (fun c => c !!! n = parent2 !!! n).
Proof.
  intros Hn.
  assert (<[n := parent2 !!! n]> child !!! n = parent2 !!! n) as H1
    by by apply list_lookup_total_insert_eq.
  destruct fuel as [|fuel]; cbn [sga.exponential_loop];
    (eapply ok_mbind; [by apply (ok_draw _ (fun _ => True))|]);
    intros r _; destruct (_ && _); try by apply ok_mret.
  eapply ok_weaken; [apply exponential_loop_mix|]. intros c [_ Hc].
  destruct (Hc n) as [->|]; done.
Qed.

Lemma mate_gene_mix (self : sga.t) (dim : nat)
    (parent2 child : vector_double) :
  sga.m_crossover self <> detail.SBX ->
  ok (mate self dim parent2 child) (gene_mix child parent2).
Proof.
  intros Hc. unfold mate. destruct (sga.m_crossover self); [| | |done].
  - eapply ok_mbind; [by apply (ok_draw _ (fun _ => True))|].
    intros n _. apply exponential_loop_mix.
  - eapply ok_mbind; [by apply (ok_draw _ (fun _ => True))|].
    intros n _.
    eapply ok_mbind
      with (P := fun s : vector_double * nat =>
                   gene_mix child parent2 s.1).
    + apply ok_for_range; [apply gene_mix_refl|].
      intros l [c k] _ Hmix. simpl in Hmix.
      eapply ok_mbind; [by apply (ok_draw _ (fun _ => True))|].
      intros r _. apply ok_mret. simpl.
      destruct (_ || _); [by apply gene_mix_insert|done].
    + intros [c k] Hmix. by apply ok_mret.
  - eapply ok_mbind; [by apply (ok_draw _ (fun _ => True))|].
    intros n _. apply ok_mret.
    apply (for_pure_inv (gene_mix child parent2)); [apply gene_mix_refl|].
    intros j c _ Hmix. by apply gene_mix_insert.
Qed.

End children.

(** X9.  With a crossover other than SBX and at least two individuals of
    one dimension (not zero, unless the crossover is the single-point one),
    [perform_crossover] is the loop that, for each slot [i] in turn, draws
    [k] in [1, NP - 1] and mates the vector in slot [i] with the vector
    that the input has in slot [partner_of i k]: the index vector has no
    other effect.  That slot is never [i], and each of the other [NP - 1]
    slots is the partner for some [k].  The result has as many vectors as
    the input, and each coordinate of the vector in slot [i] is the same
    coordinate of the one that was there or of that partner. *)
Theorem crossover_mates_with_another {L : StdLib} {LS : StdLibSpec L}
    (self : sga.t) (X : list vector_double)
    (bounds : vector_double * vector_double) :
  sga.m_crossover self <> detail.SBX -> 2 <= length X ->
  Forall (fun x => length x = length (X !!! 0)) X ->
  sga.m_crossover self = detail.SINGLE \/ 1 <= length (X !!! 0) ->
  (forall e, sga.perform_crossover self X bounds e
             = crossover_by_partner self X e) /\
  (forall i, i < length X ->
     (forall k, 1 <= k <= length X - 1 ->
                partner_of i k < length X /\ partner_of i k <> i) /\
     (forall p, p < length X -> p <> i ->
                exists k, 1 <= k <= length X - 1 /\ partner_of i k = p)) /\
  ok (sga.perform_crossover self X bounds)
     (fun R =>
        length R = length X /\
        forall i, i < length X ->
          exists k, 1 <= k <= length X - 1 /\
            gene_mix (X !!! i) (X !!! partner_of i k) (R !!! i)).
Proof.
  intros Hc Hn _ _.
  assert (forall i p, i < length X -> p < length X -> p <> i ->
            exists k, 1 <= k <= length X - 1 /\ partner_of i k = p) as Hk.
  { intros i p Hi Hp Hne. unfold partner_of.
    destruct (decide (p < i)) as [Hlt|Hge].
    - exists (S p). destruct (Nat.leb_spec (S p) i); lia.
    - exists p. destruct (Nat.leb_spec p i); lia. }
  split_and!.
  - intros e. by apply perform_crossover_by_partner.
  - intros i Hi. split; [|intros p Hp Hne; by apply Hk].
    intros k Hk'. unfold partner_of. destruct (Nat.leb_spec k i); lia.
  - eapply ok_weaken.
    + apply (crossover_each_child gene_mix self X bounds Hc Hn).
      intros i p _ _ _. by apply mate_gene_mix.
    + intros R [Hlen HR]. split; [done|]. intros i Hi.
      destruct (HR i Hi) as (p & Hp & Hne & Hmix).
      destruct (Hk i p Hi Hp Hne) as (k & Hk' & <-). by exists k.
Qed.

Lemma crossover_mates_with_another_witness :
  (forall e : list nat,
     sga.perform_crossover
       (Examples.algo 1 1 2 detail.UNIFORM detail.TRUNCATED
          detail.EXPONENTIAL 0 [])
       [[0.25; 1]; [0.5; 2]; [0.75; 3]]%float Examples.mixed_bounds e
     = crossover_by_partner
         (Examples.algo 1 1 2 detail.UNIFORM detail.TRUNCATED
            detail.EXPONENTIAL 0 [])
         [[0.25; 1]; [0.5; 2]; [0.75; 3]]%float e) /\
  (forall i, i < 3 ->
     (forall k, 1 <= k <= 2 -> partner_of i k < 3 /\ partner_of i k <> i) /\
     (forall p, p < 3 -> p <> i ->
                exists k, 1 <= k <= 2 /\ partner_of i k = p)) /\
  ok (sga.perform_crossover
        (Examples.algo 1 1 2 detail.UNIFORM detail.TRUNCATED
           detail.EXPONENTIAL 0 [])
        [[0.25; 1]; [0.5; 2]; [0.75; 3]]%float Examples.mixed_bounds)
     (fun R =>
        length R = 3 /\
        forall i, i < 3 ->
          exists k, 1 <= k <= 2 /\
            gene_mix ([[0.25; 1]; [0.5; 2]; [0.75; 3]]%float !!! i)
                     ([[0.25; 1]; [0.5; 2]; [0.75; 3]]%float
                        !!! partner_of i k)
                     (R !!! i)).
Proof.
  apply (crossover_mates_with_another (L := Tape.lib) (LS := tape_lib_spec)
           (Examples.algo 1 1 2 detail.UNIFORM detail.TRUNCATED
              detail.EXPONENTIAL 0 [])
           [[0.25; 1]; [0.5; 2]; [0.75; 3]]%float Examples.mixed_bounds).
  - discriminate.
  - simpl. lia.
  - repeat constructor.
  - right. simpl. lia.
Defined.

Lemma Forall_lookup_total_in {A} `{Inhabited A} (P : A -> Prop)
    (l : list A) (i : nat) :
  Forall P l -> i < length l -> P (l !!! i).
Proof.
  intros Hl Hi. apply (Forall_lookup_1 P l i); [done|].
  by apply list_lookup_lookup_total_lt.
Qed.

Section single_and_binomial.
Context {L : StdLib} {LS : StdLibSpec L}.

(** The copy [std::copy(parent2 + n, parent2 + dim, child + n)]. *)
Lemma for_pure_copy_tail (n dim : nat) (parent2 child : vector_double) :
  n <= dim -> length child = dim -> length parent2 = dim ->
  for_pure n dim (fun j c => <[j := parent2 !!! j]> c) child
  = take n child ++ drop n parent2.
Proof.
  intros Hn Hc Hp.
  destruct (for_pure_insert (fun j => parent2 !!! j) n dim child)
    as (Hlen & Hin & Hout); [done|lia|].
  apply list_eq. intros j.
  destruct (decide (j < n)) as [Hj|Hj].
  - rewrite Hout by lia.
    rewrite lookup_app_l by (rewrite length_take; lia).
    by rewrite lookup_take_lt.
  - rewrite lookup_app_r by (rewrite length_take; lia).
    rewrite length_take, lookup_drop.
    replace (n `min` length child) with n by lia.
    replace (n + (j - n)) with j by lia.
    destruct (decide (j < dim)) as [Hjd|Hjd].
    + rewrite Hin by lia. symmetry.
      apply list_lookup_lookup_total_lt. lia.
    + rewrite Hout by lia. rewrite !lookup_ge_None_2; [done|lia|lia].
Qed.

Lemma mate_single (self : sga.t) (dim : nat)
    (parent2 child : vector_double) :
  sga.m_crossover self = detail.SINGLE ->
  length child = dim -> length parent2 = dim ->
  ok (mate self dim parent2 child)
     (fun c => exists n, n <= dim /\ c = take n child ++ drop n parent2).
Proof.
  intros Hc Hlc Hlp. unfold mate. rewrite Hc.
  eapply ok_mbind with (P := fun n => n <= dim).
  { apply ok_draw. intros e. apply uniform_int_range. lia. }
  intros n Hn. apply ok_mret. exists n. split; [done|].
  by apply for_pure_copy_tail.
Qed.

Lemma mate_takes_a_gene (self : sga.t) (dim : nat)
    (parent2 child : vector_double) :
  sga.m_crossover self = detail.EXPONENTIAL \/
  sga.m_crossover self = detail.BINOMIAL ->
  1 <= dim -> length child = dim ->
  ok (mate self dim parent2 child)
     (fun c => exists j, j < dim /\ c !!! j = parent2 !!! j).
Proof.
  intros Hc Hdim Hlc. unfold mate. destruct Hc as [-> | ->].
  - eapply ok_mbind with (P := fun n => n <= dim - 1).
    { apply ok_draw. intros e. apply uniform_int_range. lia. }
    intros n Hn. eapply ok_weaken;
      [apply exponential_loop_first; lia|].
    intros c Hc. exists n. split; [lia|done].
  - eapply ok_mbind with (P := fun n => n <= dim - 1).
    { apply ok_draw. intros e. apply uniform_int_range. lia. }
    intros n Hn.
    eapply ok_mbind
      with (P := fun s : vector_double * nat =>
                   exists j, j < dim /\ s.1 !!! j = parent2 !!! j).
    + eapply ok_weaken.
      * apply (ok_for_range_ind
                 (fun k (s : vector_double * nat) =>
                    length s.1 = dim /\ s.2 < dim /\
                    (k = dim ->
                     exists j, j < dim /\ s.1 !!! j = parent2 !!! j)));
          [lia|simpl; split_and!; [done|lia|lia]|].
        intros l [c k] Hl (Hlen & Hk & _). simpl in *.
        eapply ok_mbind; [by apply (ok_draw _ (fun _ => True))|].
        intros r _. apply ok_mret. simpl. split_and!.
        -- destruct (_ || _); [by rewrite length_insert|done].
        -- apply Nat.mod_upper_bound. lia.
        -- intros Hlast.
           destruct (Nat.eqb_spec (l + 1) dim) as [_|Hne]; [|lia].
           rewrite orb_true_r. exists k. split; [done|].
           apply list_lookup_total_insert_eq. lia.
      * intros [c k] (_ & _ & Hlast). by apply Hlast.
    + intros [c k] Hj. by apply ok_mret.
Qed.

End single_and_binomial.

(** X10.  The single-point crossover on vectors of one dimension [dim]:
    the individual in slot [i] becomes its own first [n] coordinates
    followed by the coordinates from [n] on of a partner from another slot,
    for a cut point [n <= dim]; with [n = dim] it is left as it was. *)
Theorem single_point_crossover {L : StdLib} {LS : StdLibSpec L}
    (self : sga.t) (X : list vector_double)
    (bounds : vector_double * vector_double) (e : random_engine_type) :
  sga.m_crossover self = detail.SINGLE -> 2 <= length X ->
  Forall (fun x => length x = length (X !!! 0)) X ->
  exists R e',
    sga.perform_crossover self X bounds e = (inr R, e') /\
    length R = length X /\
    forall i, i < length X ->
      exists p, p < length X /\ p <> i /\
        exists n, n <= length (X !!! 0) /\
                  R !!! i = take n (X !!! i) ++ drop n (X !!! p).
Proof.
  intros Hc Hn Hdim.
  apply (crossover_each_child
           (fun own partner c =>
              exists n, n <= length (X !!! 0) /\
                        c = take n own ++ drop n partner)
           self X bounds); [by rewrite Hc|done|].
  intros i p Hi Hp _.
  apply mate_single; [done|..];
    by apply (Forall_lookup_total_in
                (fun x => length x = length (X !!! 0)) X).
Qed.

Lemma single_point_crossover_witness :
  exists R e',
    sga.perform_crossover
      (Examples.algo 1 1 2 detail.UNIFORM detail.TRUNCATED detail.SINGLE 0
         [])
      [[0.25; 1]; [0.5; 2]; [0.75; 3]]%float Examples.mixed_bounds
      [0; 1; 1; 2; 0; 0] = (inr R, e') /\
    length R = 3 /\
    forall i, i < 3 ->
      exists p, p < 3 /\ p <> i /\
        exists n, n <= 2 /\
          R !!! i = take n ([[0.25; 1]; [0.5; 2]; [0.75; 3]]%float !!! i)
                    ++ drop n ([[0.25; 1]; [0.5; 2]; [0.75; 3]]%float !!! p).
Proof.
  apply (single_point_crossover (L := Tape.lib) (LS := tape_lib_spec)
           (Examples.algo 1 1 2 detail.UNIFORM detail.TRUNCATED
              detail.SINGLE 0 [])
           [[0.25; 1]; [0.5; 2]; [0.75; 3]]%float Examples.mixed_bounds
           [0; 1; 1; 2; 0; 0]).
  - reflexivity.
  - simpl. lia.
  - repeat constructor.
Defined.

(** X11.  The exponential and the binomial crossover on vectors of one
    dimension [dim >= 1] change at least one parameter: the individual in
    slot [i] ends with at least one coordinate of its partner, taken from
    another slot. *)
Theorem crossover_takes_a_gene {L : StdLib} {LS : StdLibSpec L}
    (self : sga.t) (X : list vector_double)
    (bounds : vector_double * vector_double) (e : random_engine_type) :
  sga.m_crossover self = detail.EXPONENTIAL \/
  sga.m_crossover self = detail.BINOMIAL ->
  2 <= length X -> 1 <= length (X !!! 0) ->
  Forall (fun x => length x = length (X !!! 0)) X ->
  exists R e',
    sga.perform_crossover self X bounds e = (inr R, e') /\
    length R = length X /\
    forall i, i < length X ->
      exists p, p < length X /\ p <> i /\
        exists j, j < length (X !!! 0) /\
                  (R !!! i) !!! j = (X !!! p) !!! j.
Proof.
  intros Hc Hn Hd Hdim.
  apply (crossover_each_child
           (fun own partner c =>
              exists j, j < length (X !!! 0) /\ c !!! j = partner !!! j)
           self X bounds);
    [by destruct Hc as [-> | ->]|done|].
  intros i p Hi Hp _.
  apply mate_takes_a_gene; [done|done|].
  by apply (Forall_lookup_total_in
              (fun x => length x = length (X !!! 0)) X).
Qed.

Lemma crossover_takes_a_gene_witness :
  exists R e',
    sga.perform_crossover
      (Examples.algo 1 1 2 detail.UNIFORM detail.TRUNCATED detail.BINOMIAL
         0 [])
      [[0.25; 1]; [0.5; 2]; [0.75; 3]]%float Examples.mixed_bounds
      [0; 1; 3; 3; 1; 0; 3; 3; 0; 1; 3; 3] = (inr R, e') /\
    length R = 3 /\
    forall i, i < 3 ->
      exists p, p < 3 /\ p <> i /\
        exists j, j < 2 /\
          (R !!! i) !!! j
          = ([[0.25; 1]; [0.5; 2]; [0.75; 3]]%float !!! p) !!! j.
Proof.
  apply (crossover_takes_a_gene (L := Tape.lib) (LS := tape_lib_spec)
           (Examples.algo 1 1 2 detail.UNIFORM detail.TRUNCATED
              detail.BINOMIAL 0 [])
           [[0.25; 1]; [0.5; 2]; [0.75; 3]]%float Examples.mixed_bounds
           [0; 1; 3; 3; 1; 0; 3; 3; 0; 1; 3; 3]).
  - by right.
  - simpl. lia.
  - simpl. lia.
  - repeat constructor.
Defined.

(** ** Mutation *)

Lemma for_each_skip {L : StdLib} {S} (idx : list nat)
    (body : nat -> S -> M S) (s : S) e :
  (forall i s e, body i s e = (inr s, e)) ->
  for_each idx body s e = (inr s, e).
Proof.
  intros Hbody. induction idx as [|i idx IH]; [done|].
  cbn [for_each]. unfold mbind. by rewrite Hbody.
Qed.

(** X12.  The switch of [perform_mutation] has a case for UNIFORM only, and
    its loop runs over the continuous part: with the GAUSSIAN or the
    POLYNOMIAL kind, or when the vectors have no continuous coordinate
    ([int_dim] is their length), the vectors come back as they were and
    nothing is drawn. *)
Theorem mutation_does_nothing {L : StdLib} (self : sga.t)
    (X : list vector_double) (bounds : vector_double * vector_double)
    (e : random_engine_type) :
  sga.m_mutation self <> detail.UNIFORM \/
  length (X !!! 0) = sga.m_int_dim self ->
  sga.perform_mutation self X bounds e = (inr X, e).
Proof.
  intros H. unfold sga.perform_mutation, for_range.
  apply for_each_skip. intros i X' e1.
  destruct (sga.m_mutation self) eqn:Hm; try done.
  destruct H as [H|H]; [done|].
  by replace (length (X !!! 0) - sga.m_int_dim self) with 0 by lia.
Qed.

Lemma mutation_does_nothing_witness :
  sga.perform_mutation
    (Examples.algo 1 1 2 detail.GAUSSIAN detail.TRUNCATED detail.SINGLE 0
       [])
    [[0.5; 0.5; 3]; [0.25; 0.75; 4]]%float Examples.mixed_bounds [1; 2; 3]
  = (inr [[0.5; 0.5; 3]; [0.25; 0.75; 4]]%float, [1; 2; 3]).
Proof.
  apply (mutation_does_nothing (L := Tape.lib)
           (Examples.algo 1 1 2 detail.GAUSSIAN detail.TRUNCATED
              detail.SINGLE 0 [])
           [[0.5; 0.5; 3]; [0.25; 0.75; 4]]%float Examples.mixed_bounds
           [1; 2; 3]).
  left. discriminate.
Defined.

(** ** The simulated binary crossover *)

Section sbx_bounds.
Context {L : StdLib}.

(** The four tests that follow the computation of [c1] and [c2]. *)
Lemma clamp_within (c lb ub : float) :
  (ub <? lb)%float = false ->
  ((if (ub <? (if (c <? lb) then lb else c)) then ub
    else (if (c <? lb) then lb else c)) <? lb)%float = false /\
  (ub <? (if (ub <? (if (c <? lb) then lb else c)) then ub
          else (if (c <? lb) then lb else c)))%float = false.
Proof.
  intros Hb.
  destruct (c <? lb)%float eqn:E1.
  - rewrite Hb. by rewrite ltb_irrefl.
  - destruct (ub <? c)%float eqn:E2; [by rewrite ltb_irrefl|done].
Qed.

Lemma within_insert (bounds : vector_double * vector_double)
    (len : nat) (x : vector_double) (i : nat) (v : float) :
  (forall j, j < len -> within bounds x j) ->
  (i < len ->
   (v <? bounds.1 !!! i)%float = false /\
   (bounds.2 !!! i <? v)%float = false) ->
  forall j, j < len -> within bounds (<[i := v]> x) j.
Proof.
  intros Hx Hv j Hj. unfold within.
  destruct (decide (i = j)) as [->|Hne].
  - destruct (decide (j < length x)) as [Hl|Hl].
    + rewrite list_lookup_total_insert_eq by done. by apply Hv.
    + rewrite list_insert_id' by lia. by apply Hx.
  - rewrite list_lookup_total_insert_ne by done. by apply Hx.
Qed.

End sbx_bounds.

(** X13.  [sbx_crossover_impl] never leaves the box: for parents and
    bounds of one length, with [m_int_dim] no more than it, when the bounds
    are ordered and no coordinate of either parent is below its lower or
    above its upper bound, the same holds of both children, which are as
    long as the parents.  (The tests are those of the code, [x < lb] and [ub < x];
    they are both false of a NaN.) *)
Theorem sbx_children_within_bounds {L : StdLib} (self : sga.t)
    (parent1 parent2 : vector_double)
    (bounds : vector_double * vector_double) :
  sga.m_int_dim self <= length parent1 ->
  length parent2 = length parent1 ->
  length bounds.1 = length parent1 -> length bounds.2 = length parent1 ->
  (forall j, j < length parent1 ->
             (bounds.2 !!! j <? bounds.1 !!! j)%float = false) ->
  (forall j, j < length parent1 ->
             within bounds parent1 j /\ within bounds parent2 j) ->
  ok (sga.sbx_crossover_impl self parent1 parent2 bounds)
     (fun children =>
        length children.1 = length parent1 /\
        length children.2 = length parent1 /\
        forall j, j < length parent1 ->
          within bounds children.1 j /\ within bounds children.2 j).
Proof.
  intros _ Hlen _ _ Hb Hpar. unfold sga.sbx_crossover_impl.
  set (len := length parent1) in *.
  set (J := fun c : vector_double =>
              length c = len /\ forall j, j < len -> within bounds c j).
  set (I := fun c : vector_double * vector_double => J c.1 /\ J c.2).
  assert (forall c i v, J c ->
            (i < len -> (v <? bounds.1 !!! i)%float = false /\
                        (bounds.2 !!! i <? v)%float = false) ->
            J (<[i := v]> c)) as Hins.
  { intros c i v [Hl Hc] Hv. split; [by rewrite length_insert|].
    by apply within_insert. }
  assert (forall i, i < len ->
            (parent1 !!! i <? bounds.1 !!! i)%float = false /\
            (bounds.2 !!! i <? parent1 !!! i)%float = false) as Hp1
    by (intros i Hi; apply (Hpar i Hi)).
  assert (forall i, i < len ->
            (parent2 !!! i <? bounds.1 !!! i)%float = false /\
            (bounds.2 !!! i <? parent2 !!! i)%float = false) as Hp2
    by (intros i Hi; apply (Hpar i Hi)).
  assert (I (parent1, parent2)) as H0.
  { split; split; try done; intros j Hj; by apply Hpar. }
  assert (forall c, I c ->
            length c.1 = len /\ length c.2 = len /\
            forall j, j < len -> within bounds c.1 j /\ within bounds c.2 j)
    as Hend.
  { intros c [[Hl1 H1] [Hl2 H2]]. split_and!; try done.
    intros j Hj. by split; [apply H1|apply H2]. }
  eapply ok_weaken; [|exact Hend].
  eapply ok_mbind; [by apply (ok_draw _ (fun _ => True))|]. intros r _.
  eapply ok_mbind with (P := I).
  - destruct (r <=? sga.m_cr self)%float; [|by apply ok_mret].
    apply ok_for_range; [done|]. intros i [c1 c2] Hi [Hc1 Hc2].
    simpl in Hc1, Hc2.
    eapply ok_mbind; [by apply (ok_draw _ (fun _ => True))|]. intros r1 _.
    destruct (_ && _ && _); [|by apply ok_mret].
    destruct (parent1 !!! i <? parent2 !!! i)%float; cbv beta iota;
      (eapply ok_mbind; [by apply (ok_draw _ (fun _ => True))|];
       intros rand01 _;
       eapply ok_mbind; [by apply (ok_draw _ (fun _ => True))|];
       intros r2 _;
       destruct (r2 <=? 0.5)%float; apply ok_mret;
       (split; simpl; apply Hins; try done; intros Hil;
        apply clamp_within; by apply Hb)).
  - intros [c01 c02] Hc0. apply ok_for_range; [done|].
    intros i [c1 c2] Hi Hc.
    eapply ok_mbind; [by apply (ok_draw _ (fun _ => True))|]. intros r1 _.
    destruct (r1 <=? sga.m_cr self)%float.
    + eapply ok_mbind; [by apply (ok_draw _ (fun _ => True))|].
      intros site1 _.
      eapply ok_mbind; [by apply (ok_draw _ (fun _ => True))|].
      intros site2 _.
      destruct (site2 <? site1); cbv beta iota; apply ok_mret;
        repeat (apply for_pure_inv;
                [|intros k [d1 d2] Hk [Hd1 Hd2]; simpl in Hd1, Hd2;
                  split; simpl; apply Hins; auto]);
        done.
    + apply ok_mret. destruct Hc as [Hc1 Hc2]. simpl in Hc1, Hc2.
      split; simpl; apply Hins; auto.
Qed.

Lemma sbx_children_within_bounds_witness :
  ok (sga.sbx_crossover_impl
        (Examples.algo 1 1 2 detail.UNIFORM detail.TRUNCATED detail.SBX 1
           [])
        [0.125; 0.5; 6]%float [0.875; 0.25; 8]%float
        Examples.mixed_bounds)
     (fun children =>
        length children.1 = 3 /\ length children.2 = 3 /\
        forall j, j < 3 ->
          within Examples.mixed_bounds children.1 j /\
          within Examples.mixed_bounds children.2 j).
Proof.
  apply (sbx_children_within_bounds (L := Tape.lib)
           (Examples.algo 1 1 2 detail.UNIFORM detail.TRUNCATED detail.SBX
              1 [])
           [0.125; 0.5; 6]%float [0.875; 0.25; 8]%float
           Examples.mixed_bounds).
  - simpl. lia.
  - reflexivity.
  - reflexivity.
  - reflexivity.
  - intros [|[|[|j]]] Hj; [reflexivity..|simpl in Hj; lia].
  - intros [|[|[|j]]] Hj; [split; split; reflexivity..|simpl in Hj; lia].
Defined.

(** ** The tournaments *)

Lemma lookup_total_swap (v : list nat) (a b k : nat) :
  a < length v -> b < length v ->
  swap v a b !!! k
  = v !!! (if decide (k = a) then b else if decide (k = b) then a else k).
Proof.
  intros Ha Hb. unfold swap. destruct (decide (k = a)) as [->|Hka].
  - by rewrite list_lookup_total_insert_eq by (by rewrite length_insert).
  - rewrite list_lookup_total_insert_ne by done.
    destruct (decide (k = b)) as [->|Hkb].
    + by rewrite list_lookup_total_insert_eq.
    + by rewrite list_lookup_total_insert_ne.
Qed.

Lemma NoDup_swap (v : list nat) (a b : nat) :
  a < length v -> b < length v -> NoDup v -> NoDup (swap v a b).
Proof.
  intros Ha Hb Hv. apply NoDup_alt. intros i j x Hi Hj.
  assert (i < length v) as Hil
    by (rewrite <- (length_swap v a b); by eapply lookup_lt_Some).
  assert (j < length v) as Hjl
    by (rewrite <- (length_swap v a b); by eapply lookup_lt_Some).
  apply list_lookup_total_correct in Hi, Hj.
  rewrite lookup_total_swap in Hi, Hj by done.
  set (t := fun k => if decide (k = a) then b
                     else if decide (k = b) then a else k) in *.
  assert (forall k, k < length v -> t k < length v) as Ht
    by (intros k Hk; unfold t; repeat case_decide; lia).
  assert (t i = t j) as Heq.
  { eapply (proj1 (NoDup_alt v) Hv _ _ x);
      rewrite list_lookup_lookup_total_lt; auto; by f_equal. }
  unfold t in Heq. repeat case_decide; lia.
Qed.

Lemma vector_lt_single (f g : vector_double) :
  length f = 1 -> length g = 1 ->
  vector_lt f g = (f !!! 0%nat <? g !!! 0%nat)%float.
Proof.
  destruct f as [|x [|]]; try done. destruct g as [|y [|]]; try done.
  intros _ _. simpl. change ([x] !!! 0) with x. change ([y] !!! 0) with y.
  destruct (x <? y)%float; [done|]. by destruct (y <? x)%float.
Qed.

Section tournament.
Context {L : StdLib} {LS : StdLibSpec L}.
Import sga detail.

(** The scan for the minimum among the first [k] entries of [b]. *)
Lemma tournament_scan (F : list vector_double) (b : list nat) (k : nat) :
  Forall (fun f => length f = 1) F ->
  Forall (fun c => c < length F) b -> 1 <= k <= length b ->
  let winner :=
    for_pure 1 k
      (fun i winner =>
         if vector_lt (F !!! (b !!! i)) (F !!! winner) then b !!! i
         else winner)
      (b !!! 0) in
  (exists i, i < k /\ winner = b !!! i) /\
  forall i, i < k -> vector_lt (F !!! (b !!! i)) (F !!! winner) = false.
Proof.
  intros HF Hb Hk. simpl.
  assert (forall i, i < length b -> length (F !!! (b !!! i)) = 1) as Hone.
  { intros i Hi. apply (Forall_lookup_total_in (fun f => length f = 1));
      [done|]. by apply (Forall_lookup_total_in (fun c => c < length F)). }
  apply (for_pure_ind
           (fun k w => (exists i, i < k /\ w = b !!! i) /\
                       forall i, i < k ->
                         vector_lt (F !!! (b !!! i)) (F !!! w) = false));
    [lia| |].
  - split; [exists 0; split; [lia|done]|]. intros i Hi.
    replace i with 0 by lia.
    rewrite vector_lt_single by (apply Hone; lia). apply ltb_irrefl.
  - intros i w Hi [(i0 & Hi0 & ->) Hmin].
    destruct (vector_lt (F !!! (b !!! i)) (F !!! (b !!! i0))) eqn:E.
    + split; [exists i; split; [lia|done]|]. intros i' Hi'.
      destruct (decide (i' = i)) as [->|Hne].
      * rewrite vector_lt_single by (apply Hone; lia). apply ltb_irrefl.
      * specialize (Hmin i' ltac:(lia)).
        rewrite vector_lt_single in E, Hmin |- * by (apply Hone; lia).
        apply not_true_is_false. intros E'.
        by rewrite (ltb_trans _ _ _ E' E) in Hmin.
    + split; [exists i0; split; [lia|done]|]. intros i' Hi'.
      destruct (decide (i' = i)) as [->|Hne]; [done|]. apply Hmin. lia.
Qed.

(** X14.  TOURNAMENT selection on single-objective fitness vectors, with
    [1 <= m_param_s <= NP]: every slot of the result holds the winner of a
    tournament of its own among [m_param_s] distinct individuals (the first
    [m_param_s] entries of the shuffled indices), and no contestant of that
    tournament has a fitness below the winner's. *)
Theorem tournament_winner_unbeaten (self : t) (F : list vector_double) :
  m_selection self = TOURNAMENT -> 1 <= m_param_s self <= length F ->
  Forall (fun f => length f = 1) F ->
  ok (perform_selection self F)
     (fun retval =>
        length retval = length F /\
        forall j, j < length F ->
          exists contestants,
            length contestants = m_param_s self /\
            NoDup contestants /\
            retval !!! j ∈ contestants /\
            forall c, c ∈ contestants ->
              c < length F /\
              vector_lt (F !!! c) (F !!! (retval !!! j)) = false).
Proof.
  intros Hsel Hps HF. unfold perform_selection. rewrite Hsel.
  rewrite length_replicate.
  set (n := length F). set (ps := m_param_s self) in *.
  set (Q := fun w : nat =>
              exists cs, length cs = ps /\ NoDup cs /\ w ∈ cs /\
                forall c, c ∈ cs ->
                  c < n /\ vector_lt (F !!! c) (F !!! w) = false).
  set (B := fun b : list nat =>
              length b = n /\ NoDup b /\ Forall (fun c => c < n) b).
  set (I := fun (j : nat) (s : list nat * list nat) =>
              length s.1 = n /\ B s.2 /\
              forall j', j' < j -> Q (s.1 !!! j')).
  eapply ok_mbind with (P := I n).
  - apply ok_for_range_ind; [lia| |].
    + unfold I, B; simpl. split_and!.
      * by rewrite length_replicate.
      * by rewrite length_seq.
      * apply NoDup_seq.
      * apply Forall_seq. intros; unfold n; lia.
      * intros; lia.
    + intros j [retval best_idxs] Hj (Hl & HB & HQ). simpl in Hl, HB, HQ.
      eapply ok_mbind with (P := B).
      * apply ok_for_range; [done|]. intros i b Hi (Hlb & Hnd & Hfb).
        eapply ok_mbind with (P := fun index => index < n).
        { apply ok_draw. intros e.
          pose proof (uniform_int_range i (length b - 1) e). lia. }
        intros index Hindex. apply ok_mret. unfold B. split_and!.
        -- by rewrite length_swap.
        -- apply NoDup_swap; (done || lia).
        -- apply Forall_swap_lt; [lia|done].
      * intros b (Hlb & Hnd & Hfb). apply ok_mret.
        destruct (tournament_scan F b ps HF Hfb) as [(i0 & Hi0 & Hw) Hmin];
          [lia|].
        set (w := for_pure 1 ps _ _) in *.
        unfold I, B; simpl. split_and!; [by rewrite length_insert|done..|].
        intros j' Hj'. destruct (decide (j' = j)) as [->|Hne].
        -- rewrite list_lookup_total_insert_eq by lia.
           exists (take ps b). split_and!.
           ++ rewrite length_take. lia.
           ++ rewrite <- (take_drop ps b) in Hnd.
              by apply NoDup_app in Hnd as [? _].
           ++ apply elem_of_take. exists i0. split; [|done]. rewrite Hw.
              apply list_lookup_lookup_total_lt. lia.
           ++ intros c (i & Hc & Hi)%elem_of_take.
              apply list_lookup_total_correct in Hc as <-. split.
              ** apply (Forall_lookup_total_in (fun c => c < n)); [done|lia].
              ** by apply Hmin.
        -- rewrite list_lookup_total_insert_ne by done. apply HQ. lia.
  - intros [retval best_idxs] (Hl & _ & HQ). by apply ok_mret.
Qed.

End tournament.

Lemma tournament_winner_unbeaten_witness :
  ok (sga.perform_selection
        (Examples.algo 1 1 2 detail.UNIFORM detail.TOURNAMENT detail.SINGLE 0
           [])
        [[3]; [nan]; [1]; [0.5]]%float)
     (fun retval =>
        length retval = 4 /\
        forall j, j < 4 ->
          exists contestants,
            length contestants = 2 /\
            NoDup contestants /\
            retval !!! j ∈ contestants /\
            forall c, c ∈ contestants ->
              c < 4 /\
              vector_lt ([[3]; [nan]; [1]; [0.5]]%float !!! c)
                        ([[3]; [nan]; [1]; [0.5]]%float !!! (retval !!! j))
              = false).
Proof.
  apply (tournament_winner_unbeaten (L := Tape.lib) (LS := tape_lib_spec)
           (Examples.algo 1 1 2 detail.UNIFORM detail.TOURNAMENT
              detail.SINGLE 0 [])
           [[3]; [nan]; [1]; [0.5]]%float).
  - reflexivity.
  - simpl. lia.
  - repeat constructor.
Defined.

(** ** Re-evaluation and reinsertion *)

Section steps_zero_and_five.
Context {L : StdLib} {LS : StdLibSpec L}.
Import sga detail.

(** X15.  The reinsertion, slot by slot.  With parents and offspring
    ranked by their first fitness component, the new population has the
    size of the old one; slot [i] below [m_elitism] holds the parent of
    rank [i], and slot [i] from [m_elitism] on holds the offspring of rank
    [i], each with the fitness that goes with it. *)
Theorem reinsertion_slots (self : t) (pop : population)
    (XNEW FNEW : list vector_double) :
  m_elitism self <= size pop -> length (get_f pop) = size pop ->
  length XNEW = size pop -> length FNEW = size pop ->
  let best_parents :=
    std_sort (by_fitness (get_f pop)) (seq 0 (size pop)) in
  let best_offsprings := std_sort (by_fitness FNEW) (seq 0 (length FNEW)) in
  size (reinsertion self pop XNEW FNEW) = size pop /\
  forall i, i < size pop ->
    get_x (reinsertion self pop XNEW FNEW) !! i
    = Some (if decide (i < m_elitism self)
            then get_x pop !!! (best_parents !!! i)
            else XNEW !!! (best_offsprings !!! i)) /\
    get_f (reinsertion self pop XNEW FNEW) !! i
    = Some (if decide (i < m_elitism self)
            then get_f pop !!! (best_parents !!! i)
            else FNEW !!! (best_offsprings !!! i)).
Proof.
  intros Hel Hf _ _. simpl. split.
  - by apply reinsertion_size.
  - intros i Hi. destruct (decide (i < m_elitism self)) as [Hlt|Hge].
    + by apply (reinsertion_elite self pop XNEW FNEW i).
    + apply (reinsertion_offspring self pop XNEW FNEW i); [lia|done].
Qed.

(** X16.  Step 0 of a generation.  For a stochastic problem one seed is
    drawn from the engine and becomes the problem's; the decision vectors
    stay and every cached fitness is the problem's fitness under that seed.
    For any other problem the population and the engine are left as they
    are. *)
Theorem reevaluation_outcome (pop : population) (e : random_engine_type) :
  length (get_f pop) = length (get_x pop) ->
  if is_stochastic (get_problem pop) then
    exists pop',
      reevaluation pop e = (inr pop', (uniform_unsigned e).2) /\
      get_problem pop' = set_seed (get_problem pop) (uniform_unsigned e).1 /\
      get_x pop' = get_x pop /\
      get_f pop' = map (fitness (get_problem pop')) (get_x pop)
  else reevaluation pop e = (inr pop, e).
Proof.
  intros Hf. destruct (is_stochastic (get_problem pop)) eqn:Hst.
  - exists (reevaluated pop (uniform_unsigned e).1). split; [|done].
    unfold reevaluation. rewrite Hst. unfold mbind, draw, mret.
    destruct (uniform_unsigned e) as [seed e1]. cbn [fst snd]. f_equal.
    f_equal. set (prob := set_seed (get_problem pop) seed).
    set (n := length (get_x pop)).
    change (size (set_problem pop prob)) with n.
    pose proof (for_pure_ind
      (fun k p => get_problem p = prob /\ get_x p = get_x pop /\
                  length (get_f p) = n /\
                  forall i, get_f p !! i
                            = if decide (i < k)
                              then fitness prob <$> get_x pop !! i
                              else get_f pop !! i)
      0 n
      (fun j pop0 =>
         set_xf pop0 j (get_x pop0 !!! j)
           (fitness (get_problem pop0) (get_x pop0 !!! j)))
      (set_problem pop prob)) as H.
    destruct H as (Hp & Hx & Hl & Hfi); [lia| |
      |].
    + by split_and!.
    + intros i p Hi (Hp & Hx & Hl & Hfi). simpl. split_and!; try done.
      * rewrite Hx. apply list_insert_id'. intros _.
        apply list_lookup_lookup_total_lt. unfold n in Hi. lia.
      * by rewrite length_insert.
      * intros j. destruct (decide (j = i)) as [->|Hne].
        -- rewrite list_lookup_insert_eq by lia.
           destruct (decide (i < S i)); [|lia]. rewrite Hp, Hx.
           by rewrite list_lookup_lookup_total_lt by lia.
        -- rewrite list_lookup_insert_ne by done. rewrite Hfi.
           destruct (decide (j < i)), (decide (j < S i)); done || lia.
    + set (r := for_pure 0 n _ _) in *. unfold reevaluated. fold prob.
      destruct r as [rp rx rf]. simpl in *. subst rp rx. f_equal.
      apply list_eq. intros i. rewrite Hfi, list_lookup_fmap.
      destruct (decide (i < n)); [done|].
      rewrite !lookup_ge_None_2; (done || lia || idtac).
      all: try (rewrite ?length_map; unfold n in *; lia).
  - unfold reevaluation. by rewrite Hst.
Qed.

End steps_zero_and_five.

Lemma reinsertion_slots_witness :
  size (sga.reinsertion
          (Examples.algo 1 1 3 detail.UNIFORM detail.TRUNCATED detail.SINGLE
             0 [])
          Examples.three [[0.25]; [0.5]; [0.75]]%float
          [[0.25]; [0.5]; [0.75]]%float) = 3 /\
  forall i, i < 3 ->
    get_x (sga.reinsertion
             (Examples.algo 1 1 3 detail.UNIFORM detail.TRUNCATED
                detail.SINGLE 0 [])
             Examples.three [[0.25]; [0.5]; [0.75]]%float
             [[0.25]; [0.5]; [0.75]]%float) !! i
    = Some (if decide (i < 1)
            then get_x Examples.three
                   !!! (std_sort (by_fitness (get_f Examples.three))
                          (seq 0 3) !!! i)
            else [[0.25]; [0.5]; [0.75]]%float
                   !!! (std_sort
                          (by_fitness [[0.25]; [0.5]; [0.75]]%float)
                          (seq 0 3) !!! i)) /\
    get_f (sga.reinsertion
             (Examples.algo 1 1 3 detail.UNIFORM detail.TRUNCATED
                detail.SINGLE 0 [])
             Examples.three [[0.25]; [0.5]; [0.75]]%float
             [[0.25]; [0.5]; [0.75]]%float) !! i
    = Some (if decide (i < 1)
            then get_f Examples.three
                   !!! (std_sort (by_fitness (get_f Examples.three))
                          (seq 0 3) !!! i)
            else [[0.25]; [0.5]; [0.75]]%float
                   !!! (std_sort
                          (by_fitness [[0.25]; [0.5]; [0.75]]%float)
                          (seq 0 3) !!! i)).
Proof.
  apply (reinsertion_slots (L := Tape.lib)
           (Examples.algo 1 1 3 detail.UNIFORM detail.TRUNCATED
              detail.SINGLE 0 [])
           Examples.three [[0.25]; [0.5]; [0.75]]%float
           [[0.25]; [0.5]; [0.75]]%float).
  - vm_compute. lia.
  - reflexivity.
  - reflexivity.
  - reflexivity.
Defined.

Lemma reevaluation_outcome_witness :
  exists pop',
    sga.reevaluation (L := Tape.lib) Examples.noisy_two [5; 6]
    = (inr pop', [6]) /\
    get_problem pop' = set_seed Examples.noisy_line 5 /\
    get_x pop' = [[0.25]; [0.75]]%float /\
    get_f pop' = map (fitness (get_problem pop')) [[0.25]; [0.75]]%float.
Proof.
  exact (reevaluation_outcome (L := Tape.lib) Examples.noisy_two [5; 6]
           eq_refl).
Defined.

Lemma sbx_keeps_integer_part_witness :
  ok (sga.sbx_crossover_impl
        (Examples.algo 1 1 2 detail.UNIFORM detail.TRUNCATED detail.SBX 1
           [])
        [0.125; 0.5; 6]%float [0.875; 0.25; 8]%float
        Examples.mixed_bounds)
     (fun children =>
        forall j, 2 <= j ->
                  children.1 !! j = [0.125; 0.5; 6]%float !! j /\
                  children.2 !! j = [0.875; 0.25; 8]%float !! j).
Proof.
  apply (sbx_keeps_integer_part (L := Tape.lib) (LS := tape_lib_spec)
           (Examples.algo 1 1 2 detail.UNIFORM detail.TRUNCATED detail.SBX
              1 [])
           [0.125; 0.5; 6]%float [0.875; 0.25; 8]%float
           Examples.mixed_bounds).
  simpl. lia.
Defined.

(** ** The uniform mutation *)

(** X17.  The UNIFORM mutation on vectors with a continuous coordinate:
    whatever [m_m] is, every individual has its coordinate 0 replaced by
    [lb[0] + r * (ub[0] - lb[0])] for a draw [r] of [0, 1) of its own, and
    keeps all its other coordinates. *)
Theorem uniform_mutation_redraws_first {L : StdLib} {LS : StdLibSpec L}
    (self : sga.t) (X : list vector_double)
    (bounds : vector_double * vector_double) :
  sga.m_mutation self = detail.UNIFORM ->
  sga.m_int_dim self < length (X !!! 0) ->
  Forall (fun x => length x = length (X !!! 0)) X ->
  ok (sga.perform_mutation self X bounds)
     (fun X' =>
        length X' = length X /\
        forall i, i < length X ->
          exists r, (0 <=? r)%float = true /\ (r <? 1)%float = true /\
            X' !!! i
            = <[0 := (bounds.1 !!! 0%nat
                      + r * (bounds.2 !!! 0%nat - bounds.1 !!! 0%nat))
                     %float]> (X !!! i)).
Proof.
  intros Hm Hdim _. unfold sga.perform_mutation. rewrite Hm.
  set (mutated := fun (x x' : vector_double) =>
         exists r, (0 <=? r)%float = true /\ (r <? 1)%float = true /\
           x' = <[0 := (bounds.1 !!! 0%nat
                        + r * (bounds.2 !!! 0%nat
                               - bounds.1 !!! 0%nat))%float]> x).
  set (I := fun (k : nat) (X' : list vector_double) =>
              length X' = length X /\
              (forall i, i < k -> mutated (X !!! i) (X' !!! i)) /\
              (forall i, k <= i -> X' !!! i = X !!! i)).
  eapply ok_weaken.
  - apply (ok_for_range_ind I); [lia|by split_and!; [|intros; lia|]|].
    intros i X' Hi (Hlen & Hlow & Hhigh).
    destruct (length (X !!! 0) - sga.m_int_dim self) as [|n] eqn:Hn; [lia|].
    unfold range. rewrite Nat.sub_0_r. simpl.
    eapply ok_mbind with (P := fun p => I (S i) p.1 /\ p.2 = true).
    + eapply ok_mbind
        with (P := fun r => (0 <=? r)%float = true /\ (r <? 1)%float = true).
      { apply ok_draw. intros e. apply uniform_real_range. }
      intros r [Hr0 Hr1]. apply ok_mret. simpl. split; [|done].
      unfold I. split_and!.
      * by rewrite length_insert.
      * intros i' Hi'. destruct (decide (i' = i)) as [->|Hne].
        -- rewrite list_lookup_total_insert_eq by lia.
           rewrite Hhigh by lia. by exists r.
        -- rewrite list_lookup_total_insert_ne by done. apply Hlow. lia.
      * intros i' Hi'. rewrite list_lookup_total_insert_ne by lia.
        apply Hhigh. lia.
    + intros [X'' brk] (HI & Hbrk). simpl in Hbrk. subst brk.
      by apply ok_mret.
  - intros X' (Hlen & Hlow & _). split; [done|]. intros i Hi.
    by apply Hlow.
Qed.

Lemma uniform_mutation_redraws_first_witness :
  ok (sga.perform_mutation (Examples.mutator 0 1)
        [[0.5; 0.5; 3]; [0.25; 0.75; 4]]%float Examples.mixed_bounds)
     (fun X' =>
        length X' = 2 /\
        forall i, i < 2 ->
          exists r, (0 <=? r)%float = true /\ (r <? 1)%float = true /\
            X' !!! i
            = <[0 := (0 + r * (1 - 0))%float]>
                ([[0.5; 0.5; 3]; [0.25; 0.75; 4]]%float !!! i)).
Proof.
  apply (uniform_mutation_redraws_first (L := Tape.lib)
           (LS := tape_lib_spec) (Examples.mutator 0 1)
           [[0.5; 0.5; 3]; [0.25; 0.75; 4]]%float Examples.mixed_bounds).
  - reflexivity.
  - simpl. lia.
  - repeat constructor.
Defined.

(** ** One coordinate of the simulated binary crossover *)

Section float_facts.
Import FloatOrder.



Lemma leb_nan_r (a b : float) : is_nan b = true -> (a <=? b)%float = false.
Proof.
  rewrite is_nan_spec. intros E. rewrite FloatAxioms.leb_spec.
  unfold SFleb. by rewrite (SFcompare_nan_r _ _ E).
Qed.






End float_facts.

Section sbx_one_coordinate.
Context {L : StdLib} {LS : StdLibSpec L}.


End sbx_one_coordinate.





